(** * Shenandoah root processor: [update_all_roots]

    A shallow embedding of
    [src/hotspot/share/gc/shenandoah/shenandoahRootProcessor.inline.hpp]
    together with the collaborators it calls, and the properties of the
    root-scanning coordinator that follow from it.

    The C++ body is a sequence of calls that act on state shared by all GC
    workers (the claim flags of [_process_strong_tasks], the worker timing
    table) and that invoke caller-supplied closures.  It is embedded as a
    value of a small resumption monad [Task]: a task is a sequence of atomic
    actions on the shared [State], each of which may emit [Event]s (closure
    invocations, timing records, calls that were entered).  A task can be
    run alone ([run]) or interleaved with the tasks of the other workers of
    the pool under an arbitrary schedule ([exec]). *)

From stdpp Require Import base decidable countable gmap list.

Set Default Proof Using "Type".

(** ** Data model *)

(** Identities of the things a root may refer to.  The C++ code handles
    them through pointers; only their identity matters here. *)
Definition oop := nat.
Definition cld := nat.
Definition blob := nat.
Definition thread := nat.

(** Caller-supplied closures ([OopClosure*], [CLDClosure*],
    [CodeBlobClosure*], [ThreadClosure*]): borrowed pointers. *)
Definition OopClosure := nat.
Definition CLDClosure := nat.
Definition CodeBlobClosure := nat.
Definition ThreadClosure := nat.

(** Modelled from the spec: the enumeration of claimable subtasks is
    declared in [shenandoahRootProcessor.hpp], which is not part of the
    sources at hand; only [SHENANDOAH_RP_PS_JNIHandles_weak_oops_do] is
    named by the code.  The catalog is the closed set of root categories of
    the data model: weak-handle roots, class-metadata roots, code roots,
    thread roots and miscellaneous strong roots. *)
Inductive Subtask : Set :=
| SHENANDOAH_RP_PS_JNIHandles_weak_oops_do
| RP_PS_ClassMetadata_roots_do
| RP_PS_Code_roots_do
| RP_PS_Thread_roots_do
| RP_PS_Misc_strong_roots_do.

#[global] Instance Subtask_eq_dec : EqDecision Subtask.
Proof. solve_decision. Defined.

Definition Subtask_to_nat (t : Subtask) : nat :=
  match t with
  | SHENANDOAH_RP_PS_JNIHandles_weak_oops_do => 0
  | RP_PS_ClassMetadata_roots_do => 1
  | RP_PS_Code_roots_do => 2
  | RP_PS_Thread_roots_do => 3
  | RP_PS_Misc_strong_roots_do => 4
  end.

Definition Subtask_of_nat (n : nat) : option Subtask :=
  match n with
  | 0 => Some SHENANDOAH_RP_PS_JNIHandles_weak_oops_do
  | 1 => Some RP_PS_ClassMetadata_roots_do
  | 2 => Some RP_PS_Code_roots_do
  | 3 => Some RP_PS_Thread_roots_do
  | 4 => Some RP_PS_Misc_strong_roots_do
  | _ => None
  end.

#[global] Program Instance Subtask_countable : Countable Subtask :=
  inj_countable Subtask_to_nat Subtask_of_nat _.
Next Obligation. by intros []. Qed.

(** The strong-root subtasks, in the order [process_all_roots] attempts
    them. *)
Definition strong_subtasks : list Subtask :=
  [ RP_PS_ClassMetadata_roots_do; RP_PS_Code_roots_do;
    RP_PS_Thread_roots_do; RP_PS_Misc_strong_roots_do ].

(** Modelled from the spec: [ShenandoahPhaseTimings::GCParPhases] is
    declared in a header that is not part of the sources at hand; only
    [JNIWeakRoots] is named by the code.  Every subtask has a phase id of
    its own. *)
Inductive GCParPhases : Set :=
| JNIWeakRoots
| ClassMetadataRoots
| CodeRoots
| ThreadRoots
| MiscStrongRoots.

#[global] Instance GCParPhases_eq_dec : EqDecision GCParPhases.
Proof. solve_decision. Defined.

Definition GCParPhases_to_nat (p : GCParPhases) : nat :=
  match p with
  | JNIWeakRoots => 0
  | ClassMetadataRoots => 1
  | CodeRoots => 2
  | ThreadRoots => 3
  | MiscStrongRoots => 4
  end.

Definition GCParPhases_of_nat (n : nat) : option GCParPhases :=
  match n with
  | 0 => Some JNIWeakRoots
  | 1 => Some ClassMetadataRoots
  | 2 => Some CodeRoots
  | 3 => Some ThreadRoots
  | 4 => Some MiscStrongRoots
  | _ => None
  end.

#[global] Program Instance GCParPhases_countable : Countable GCParPhases :=
  inj_countable GCParPhases_to_nat GCParPhases_of_nat _.
Next Obligation. by intros []. Qed.

Definition phase_of (t : Subtask) : GCParPhases :=
  match t with
  | SHENANDOAH_RP_PS_JNIHandles_weak_oops_do => JNIWeakRoots
  | RP_PS_ClassMetadata_roots_do => ClassMetadataRoots
  | RP_PS_Code_roots_do => CodeRoots
  | RP_PS_Thread_roots_do => ThreadRoots
  | RP_PS_Misc_strong_roots_do => MiscStrongRoots
  end.

(** One invocation of a caller-supplied closure on one item. *)
Inductive Visit : Set :=
| do_oop (cl : OopClosure) (o : oop)
| do_cld (cl : CLDClosure) (c : cld)
| do_code_blob (cl : CodeBlobClosure) (b : blob)
| do_thread (cl : ThreadClosure) (t : thread).

(** The table a visited item was found in. *)
Inductive Origin : Set :=
| FromSubtask (t : Subtask)
| FromDedupTable.

(** What a worker does that can be seen from outside. *)
Inductive Event : Set :=
| EvConstructIsAlive (addr : nat)
| EvClaim (t : Subtask) (granted : bool)
| EvTimerStart (p : GCParPhases) (worker_id : nat)
| EvTimerStop (p : GCParPhases) (worker_id : nat) (elapsed : nat)
| EvWeakOopsDo (is_alive : nat) (oops : OopClosure)
| EvProcessAllRoots (oops : OopClosure) (clds : CLDClosure)
    (blobs : CodeBlobClosure) (thread_cl : ThreadClosure) (worker_id : nat)
| EvParallelOopsDo (is_alive : nat) (oops : OopClosure) (worker_id : nat)
| EvVisit (from : Origin) (v : Visit).

#[global] Instance Visit_eq_dec : EqDecision Visit.
Proof. solve_decision. Defined.
#[global] Instance Origin_eq_dec : EqDecision Origin.
Proof. solve_decision. Defined.
#[global] Instance Event_eq_dec : EqDecision Event.
Proof. solve_decision. Defined.

(** The heap and phase context, fixed for the duration of one phase: what
    [ShenandoahHeap::heap()], [ShenandoahStringDedup::is_enabled()] and the
    root tables answer.  [marking_context] is the liveness snapshot of the
    phase.  [visit_cost] is the time one closure invocation takes, in ticks
    of the clock that the timing trackers read. *)
Record Heap : Type := {
  string_dedup_enabled : bool;
  marking_context : oop → bool;
  weak_handle_table : list oop;
  class_metadata_table : list cld;
  code_blob_table : list blob;
  thread_table : list thread;
  misc_strong_table : list oop;
  dedup_table_partition : nat → list oop;
  visit_cost : Origin → Visit → nat;
}.

(** The state shared by the workers of one phase. *)
Record State : Type := {
  _process_strong_tasks : gset Subtask;
  worker_times : gmap (GCParPhases * nat) nat;
  clock : nat;
  next_addr : nat;
}.

Definition phase_start : State :=
  {| _process_strong_tasks := ∅; worker_times := ∅; clock := 0;
     next_addr := 0 |}.

(** ** Tasks: sequences of atomic actions *)

(** [Atomic act k]: perform [act] on the shared state in one indivisible
    step, then continue as [k s] where [s] is the state the step started
    from. *)
Inductive Task (A : Type) : Type :=
| Ret (a : A)
| Atomic (act : State → State * list Event) (k : State → Task A).
Arguments Ret {A} a.
Arguments Atomic {A} act k.

Fixpoint bind {A B : Type} (t : Task A) (f : A → Task B) : Task B :=
  match t with
  | Ret a => f a
  | Atomic act k => Atomic act (λ s, bind (k s) f)
  end.

#[global] Instance Task_ret : MRet Task := @Ret.
#[global] Instance Task_bind : MBind Task := λ A B f t, bind t f.

(** An atomic action that returns a value. *)
Definition atomic {A : Type} (f : State → A * State * list Event) : Task A :=
  Atomic (λ s, ((f s).1.2, (f s).2)) (λ s, Ret (f s).1.1).

(** [for (x : l) body]. *)
Fixpoint for_each {A : Type} (l : list A) (body : A → Task unit) : Task unit :=
  match l with
  | [] => Ret tt
  | x :: l' => body x ;; for_each l' body
  end.

(** Running one task alone, to completion. *)
Fixpoint run {A : Type} (t : Task A) (s : State) : A * State * list Event :=
  match t with
  | Ret a => (a, s, [])
  | Atomic act k =>
      let '(s1, es1) := act s in
      let '(a, s2, es2) := run (k s) s1 in
      (a, s2, es1 ++ es2)
  end.

(** What the events of a run are, and the state it ends in. *)
Definition events {A : Type} (t : Task A) (s : State) : list Event := (run t s).2.
Definition final {A : Type} (t : Task A) (s : State) : State := (run t s).1.2.

(** ** The worker pool *)

(** One atomic step of one task; a finished task stays as it is. *)
Definition step_task (t : Task unit) (s : State) : Task unit * State * list Event :=
  match t with
  | Ret a => (Ret a, s, [])
  | Atomic act k => (k s, (act s).1, (act s).2)
  end.

Definition is_done (t : Task unit) : bool :=
  match t with Ret _ => true | Atomic _ _ => false end.

(** A schedule names, step after step, the worker that moves.  The log
    records every event with the index of the worker that produced it. *)
Fixpoint exec (sched : list nat) (pool : list (Task unit)) (s : State)
  : list (Task unit) * State * list (nat * Event) :=
  match sched with
  | [] => (pool, s, [])
  | i :: sched' =>
      match pool !! i with
      | None => exec sched' pool s
      | Some t =>
          let '(t', s1, es) := step_task t s in
          let '(pool', s2, log) := exec sched' (<[i := t']> pool) s1 in
          (pool', s2, ((λ e, (i, e)) <$> es) ++ log)
      end
  end.

(** ** State updates *)

Definition set_tasks (ts : gset Subtask) (s : State) : State :=
  {| _process_strong_tasks := ts; worker_times := worker_times s;
     clock := clock s; next_addr := next_addr s |}.

Definition set_worker_times (wt : gmap (GCParPhases * nat) nat) (s : State) : State :=
  {| _process_strong_tasks := _process_strong_tasks s; worker_times := wt;
     clock := clock s; next_addr := next_addr s |}.

Definition set_clock (c : nat) (s : State) : State :=
  {| _process_strong_tasks := _process_strong_tasks s;
     worker_times := worker_times s; clock := c; next_addr := next_addr s |}.

Definition set_next_addr (a : nat) (s : State) : State :=
  {| _process_strong_tasks := _process_strong_tasks s;
     worker_times := worker_times s; clock := clock s; next_addr := a |}.

(** The time recorded so far in one cell of the timing table. *)
Definition recorded (s : State) (p : GCParPhases) (worker_id : nat) : nat :=
  default 0 (worker_times s !! (p, worker_id)).

(** Modelled from the spec: [ShenandoahWorkerTimings::record_time_secs]
    is not part of the sources at hand.  Section 4.5: the elapsed time is
    accumulated into the cell (phase, worker) of the shared table. *)
Definition record_time_secs (p : GCParPhases) (worker_id : nat) (elapsed : nat)
    (s : State) : State :=
  set_worker_times
    (<[(p, worker_id) := recorded s p worker_id + elapsed]> (worker_times s)) s.

(** ** The collaborators of the root processor *)

(** The template parameter [IsAlive] of [update_all_roots]: a default
    constructible [BoolObjectClosure]. *)
Class BoolObjectClosure (IsAlive : Type) : Type := {
  default_construct : Heap → IsAlive;
  do_object_b : IsAlive → oop → bool;
}.

(** Modelled from the spec: the closures the collector instantiates
    [IsAlive] with are not part of the sources at hand.  Section 6 names the
    strategy "is this object marked": the closure binds the marking context
    of the heap when it is constructed and answers from it. *)
Record ShenandoahIsAliveClosure : Type := { _mark_context : oop → bool }.

#[global] Instance ShenandoahIsAliveClosure_closure
  : BoolObjectClosure ShenandoahIsAliveClosure :=
  {| default_construct := λ heap, {| _mark_context := marking_context heap |};
     do_object_b := λ cl o, _mark_context cl o |}.

(** An object with automatic storage: its address and its value.  Passing
    [&is_alive] passes the whole record. *)
Record StackObj (A : Type) : Type := { addr : nat; obj : A }.
Arguments addr {A} _.
Arguments obj {A} _.

(** [ShenandoahWorkerTimings*]: the one timing table of the phase. *)
Inductive ShenandoahWorkerTimings : Set := PhaseWorkerTimes.

Record ShenandoahWorkerTimingsTracker : Set := {
  _worker_times : ShenandoahWorkerTimings;
  _phase : GCParPhases;
  _worker_id : nat;
  _start_time : nat;
}.

Section RootProcessor.
Context (heap : Heap).
Context {IsAlive : Type} `{!BoolObjectClosure IsAlive}.

(** [ShenandoahHeap::heap()->phase_timings()->worker_times()]. *)
Definition heap_phase_timings_worker_times : ShenandoahWorkerTimings :=
  PhaseWorkerTimes.

(** [IsAlive is_alive;]: a fresh object at a fresh address. *)
Definition construct_IsAlive : Task (StackObj IsAlive) :=
  atomic (λ s,
    ({| addr := next_addr s; obj := default_construct heap |},
     set_next_addr (S (next_addr s)) s,
     [EvConstructIsAlive (next_addr s)])).

(** Modelled from the spec: [SubTasksDone::is_task_claimed] is not part
    of the sources at hand.  It is the claim primitive of section 4.1, an
    atomic test-and-set of the flag of [t]: it answers [false] to the one
    caller that gets the subtask, which it marks claimed, and [true] to
    every later caller, for which nothing changes. *)
Definition is_task_claimed (t : Subtask) : Task bool :=
  atomic (λ s,
    if bool_decide (t ∈ _process_strong_tasks s)
    then (true, s, [EvClaim t false])
    else (false, set_tasks ({[t]} ∪ _process_strong_tasks s) s,
          [EvClaim t true])).

(** Modelled from the spec: [ShenandoahWorkerTimingsTracker] is declared
    in [shenandoahTimingTracker.hpp], not part of the sources at hand.
    Section 4.5: the constructor takes the start time, the destructor adds
    the time elapsed since then to the cell (phase, worker). *)
Definition tracker_construct (wt : ShenandoahWorkerTimings)
    (p : GCParPhases) (worker_id : nat) : Task ShenandoahWorkerTimingsTracker :=
  atomic (λ s,
    ({| _worker_times := wt; _phase := p; _worker_id := worker_id;
        _start_time := clock s |},
     s, [EvTimerStart p worker_id])).

Definition tracker_destruct (tr : ShenandoahWorkerTimingsTracker) : Task unit :=
  atomic (λ s,
    let elapsed := clock s - _start_time tr in
    (tt,
     record_time_secs (_phase tr) (_worker_id tr) elapsed s,
     [EvTimerStop (_phase tr) (_worker_id tr) elapsed])).

(** One invocation of a closure: it is seen, and it takes time. *)
Definition invoke (from : Origin) (v : Visit) : Task unit :=
  atomic (λ s,
    (tt, set_clock (clock s + visit_cost heap from v) s, [EvVisit from v])).

(** Modelled from the spec: [WeakProcessor::weak_oops_do] is not part of
    the sources at hand.  Section 6 and the liveness gating of section 8:
    one entry point taking a liveness filter and an object-reference
    visitor; the visitor is invoked on the candidates of the weak-handle
    root table that the filter reports alive, and on no other. *)
Definition weak_oops_do (is_alive : StackObj IsAlive) (oops : OopClosure)
  : Task unit :=
  atomic (λ s, (tt, s, [EvWeakOopsDo (addr is_alive) oops])) ;;
  for_each (weak_handle_table heap) (λ o,
    if do_object_b (obj is_alive) o
    then invoke (FromSubtask SHENANDOAH_RP_PS_JNIHandles_weak_oops_do)
           (do_oop oops o)
    else Ret tt).

(** Modelled from the spec: the visitors of the strong root categories
    are not part of the sources at hand.  Section 4.2, step 3: the
    visitor of a category gets [oops] and the callback of the category,
    [clds] for class-metadata roots, [blobs] for compiled-code roots,
    [thread_cl] for thread roots; the miscellaneous roots use [oops]
    only.  The weak-handle roots are no strong category. *)
Definition roots_do (t : Subtask) (oops : OopClosure) (clds : CLDClosure)
    (blobs : CodeBlobClosure) (thread_cl : ThreadClosure) : Task unit :=
  match t with
  | SHENANDOAH_RP_PS_JNIHandles_weak_oops_do => Ret tt
  | RP_PS_ClassMetadata_roots_do =>
      for_each (class_metadata_table heap) (λ c,
        invoke (FromSubtask t) (do_cld clds c))
  | RP_PS_Code_roots_do =>
      for_each (code_blob_table heap) (λ b,
        invoke (FromSubtask t) (do_code_blob blobs b))
  | RP_PS_Thread_roots_do =>
      for_each (thread_table heap) (λ th,
        invoke (FromSubtask t) (do_thread thread_cl th))
  | RP_PS_Misc_strong_roots_do =>
      for_each (misc_strong_table heap) (λ o,
        invoke (FromSubtask t) (do_oop oops o))
  end.

(** Modelled from the spec: [ShenandoahRootProcessor::process_all_roots]
    is defined in [shenandoahRootProcessor.cpp], not part of the sources
    at hand.  Section 4.2: for each strong-root subtask of the catalog,
    try to claim it; on success open a timing record for (phase of the
    subtask, worker), run the visitor of the category and close the
    record; on failure go on to the next subtask. *)
Definition process_subtask (wt : ShenandoahWorkerTimings) (oops : OopClosure)
    (clds : CLDClosure) (blobs : CodeBlobClosure) (thread_cl : ThreadClosure)
    (worker_id : nat) (t : Subtask) : Task unit :=
  claimed ← is_task_claimed t;
  if negb claimed then
    timer ← tracker_construct wt (phase_of t) worker_id;
    roots_do t oops clds blobs thread_cl ;;
    tracker_destruct timer
  else Ret tt.

Definition process_all_roots (oops : OopClosure) (clds : CLDClosure)
    (blobs : CodeBlobClosure) (thread_cl : ThreadClosure) (worker_id : nat)
  : Task unit :=
  atomic (λ s,
    (tt, s, [EvProcessAllRoots oops clds blobs thread_cl worker_id])) ;;
  for_each strong_subtasks
    (process_subtask heap_phase_timings_worker_times
       oops clds blobs thread_cl worker_id).

(** [ShenandoahStringDedup::is_enabled()]: a flag of the collection. *)
Definition ShenandoahStringDedup_is_enabled : Task bool :=
  Ret (string_dedup_enabled heap).

(** Modelled from the spec: [ShenandoahStringDedup::parallel_oops_do] is
    not part of the sources at hand.  Section 4.3, step 4, and the
    liveness gating of section 8: a pass over the partition of the
    deduplication table that belongs to the worker, not gated by any
    claim; the visitor is invoked on the entries that the filter reports
    alive, and on no other. *)
Definition parallel_oops_do (is_alive : StackObj IsAlive) (oops : OopClosure)
    (worker_id : nat) : Task unit :=
  atomic (λ s, (tt, s, [EvParallelOopsDo (addr is_alive) oops worker_id])) ;;
  for_each (dedup_table_partition heap worker_id) (λ o,
    if do_object_b (obj is_alive) o
    then invoke FromDedupTable (do_oop oops o)
    else Ret tt).

(** [ShenandoahRootProcessor::update_all_roots<IsAlive>], lines 31-50 of
    [shenandoahRootProcessor.inline.hpp].  The tracker [timer] lives in
    the block of the [if]: it is destroyed at the closing brace, after
    [weak_oops_do] and before [process_all_roots]. *)
Definition update_all_roots (oops : OopClosure) (clds : CLDClosure)
    (blobs : CodeBlobClosure) (thread_cl : ThreadClosure) (worker_id : nat)
  : Task unit :=
  let worker_times := heap_phase_timings_worker_times in
  is_alive ← construct_IsAlive;
  claimed ← is_task_claimed SHENANDOAH_RP_PS_JNIHandles_weak_oops_do;
  (if negb claimed then
     timer ← tracker_construct worker_times JNIWeakRoots worker_id;
     weak_oops_do is_alive oops ;;
     tracker_destruct timer
   else Ret tt) ;;
  process_all_roots oops clds blobs thread_cl worker_id ;;
  enabled ← ShenandoahStringDedup_is_enabled;
  if enabled : bool
  then parallel_oops_do is_alive oops worker_id
  else Ret tt.

(** What a call is compared with when the weak-handle roots are already
    claimed: the liveness filter is constructed, [process_all_roots] is
    called with the same arguments, and the deduplication pass follows
    when deduplication is enabled.  No weak-root branch. *)
Definition process_all_roots_then_dedup (oops : OopClosure)
    (clds : CLDClosure) (blobs : CodeBlobClosure) (thread_cl : ThreadClosure)
    (worker_id : nat) : Task unit :=
  is_alive ← construct_IsAlive;
  process_all_roots oops clds blobs thread_cl worker_id ;;
  if string_dedup_enabled heap
  then parallel_oops_do is_alive oops worker_id
  else Ret tt.

(** The pool of one phase: every worker of [workers] calls
    [update_all_roots] once, with the same closures. *)
Definition phase_pool (oops : OopClosure) (clds : CLDClosure)
    (blobs : CodeBlobClosure) (thread_cl : ThreadClosure)
    (workers : list nat) : list (Task unit) :=
  update_all_roots oops clds blobs thread_cl <$> workers.

End RootProcessor.

(** ** Predicates on events *)

Abbreviation weak_subtask := SHENANDOAH_RP_PS_JNIHandles_weak_oops_do.

Definition is_construct (e : Event) : bool :=
  match e with EvConstructIsAlive _ => true | _ => false end.

Definition is_claim_of (t : Subtask) (e : Event) : bool :=
  match e with EvClaim t' _ => bool_decide (t' = t) | _ => false end.

Definition is_granted_claim (e : Event) : bool :=
  match e with EvClaim _ granted => granted | _ => false end.

Definition is_weak_oops_do (e : Event) : bool :=
  match e with EvWeakOopsDo _ _ => true | _ => false end.

Definition is_process_all_roots (e : Event) : bool :=
  match e with EvProcessAllRoots _ _ _ _ _ => true | _ => false end.

Definition is_parallel_oops_do (e : Event) : bool :=
  match e with EvParallelOopsDo _ _ _ => true | _ => false end.

(** Invocations of a caller-supplied closure. *)
Definition is_visit (e : Event) : bool :=
  match e with EvVisit _ _ => true | _ => false end.

Definition is_visit_from (from : Origin) (e : Event) : bool :=
  match e with EvVisit from' _ => bool_decide (from' = from) | _ => false end.

(** Events of the timing trackers; [EvTimerStop] is the write to the
    timing table. *)
Definition is_timer (e : Event) : bool :=
  match e with EvTimerStart _ _ | EvTimerStop _ _ _ => true | _ => false end.

Definition is_timer_of (p : GCParPhases) (e : Event) : bool :=
  match e with
  | EvTimerStart p' _ | EvTimerStop p' _ _ => bool_decide (p' = p)
  | _ => false
  end.

(** Everything the weak-root branch can be seen by. *)
Definition is_weak_root_event (e : Event) : bool :=
  is_weak_oops_do e || is_visit_from (FromSubtask weak_subtask) e
  || is_timer_of JNIWeakRoots e.

(** The invocations of the weak-handle-root visitor and of the closure it
    applies. *)
Definition is_weak_visitor_event (e : Event) : bool :=
  is_weak_oops_do e || is_visit_from (FromSubtask weak_subtask) e.

(** Everything the deduplication pass can be seen by. *)
Definition is_dedup_event (e : Event) : bool :=
  is_parallel_oops_do e || is_visit_from FromDedupTable e.

(** The visits of a pass over [table] with the filter [is_alive]. *)
Definition live_visits {IsAlive : Type} `{!BoolObjectClosure IsAlive}
    (is_alive : IsAlive) (oops : OopClosure) (table : list oop)
  : list Visit :=
  do_oop oops <$> filter (λ o, do_object_b is_alive o = true) table.

(** The visits of the visitor of a strong root category. *)
Definition category_visits (heap : Heap) (t : Subtask) (oops : OopClosure)
    (clds : CLDClosure) (blobs : CodeBlobClosure) (thread_cl : ThreadClosure)
  : list Visit :=
  match t with
  | SHENANDOAH_RP_PS_JNIHandles_weak_oops_do => []
  | RP_PS_ClassMetadata_roots_do => do_cld clds <$> class_metadata_table heap
  | RP_PS_Code_roots_do => do_code_blob blobs <$> code_blob_table heap
  | RP_PS_Thread_roots_do => do_thread thread_cl <$> thread_table heap
  | RP_PS_Misc_strong_roots_do => do_oop oops <$> misc_strong_table heap
  end.

(** The time the visits of a list take. *)
Definition visits_cost (heap : Heap) (from : Origin) (vs : list Visit) : nat :=
  sum_list (visit_cost heap from <$> vs).

(** What the parts of one call of [update_all_roots] can be seen to do.
    [a] is the address of the liveness filter of the call. *)
Section Observations.
Context (heap : Heap).
Context {IsAlive : Type} `{!BoolObjectClosure IsAlive}.

Definition weak_root_visits (oops : OopClosure) : list Visit :=
  live_visits (default_construct heap) oops (weak_handle_table heap).

Definition weak_root_cost (oops : OopClosure) : nat :=
  visits_cost heap (FromSubtask SHENANDOAH_RP_PS_JNIHandles_weak_oops_do)
    (weak_root_visits oops).

(** The weak-root branch: the timing record around the weak-handle-root
    visitor. *)
Definition weak_root_events (a : nat) (oops : OopClosure) (worker_id : nat)
  : list Event :=
  EvTimerStart JNIWeakRoots worker_id :: EvWeakOopsDo a oops ::
    (EvVisit (FromSubtask SHENANDOAH_RP_PS_JNIHandles_weak_oops_do) <$>
       weak_root_visits oops) ++
    [EvTimerStop JNIWeakRoots worker_id (weak_root_cost oops)].

(** The state in which [process_all_roots] starts, for a call entered
    in [s]. *)
Definition after_weak_roots (oops : OopClosure) (worker_id : nat) (s : State)
  : State :=
  let s1 := set_next_addr (S (next_addr s)) s in
  if bool_decide
       (SHENANDOAH_RP_PS_JNIHandles_weak_oops_do ∈ _process_strong_tasks s)
  then s1
  else
    record_time_secs JNIWeakRoots worker_id (weak_root_cost oops)
      (set_clock (clock s + weak_root_cost oops)
         (set_tasks
            ({[SHENANDOAH_RP_PS_JNIHandles_weak_oops_do]} ∪
               _process_strong_tasks s) s1)).

Definition dedup_visits (oops : OopClosure) (worker_id : nat) : list Visit :=
  live_visits (default_construct heap) oops
    (dedup_table_partition heap worker_id).

Definition dedup_cost (oops : OopClosure) (worker_id : nat) : nat :=
  visits_cost heap FromDedupTable (dedup_visits oops worker_id).

(** The deduplication pass of one worker. *)
Definition dedup_events (a : nat) (oops : OopClosure) (worker_id : nat)
  : list Event :=
  EvParallelOopsDo a oops worker_id ::
    (EvVisit FromDedupTable <$> dedup_visits oops worker_id).
End Observations.

(** The weak-root calls of a pool log. *)
Definition weak_calls (log : list (nat * Event)) : list (nat * Event) :=
  filter (λ ie, is_weak_oops_do ie.2 = true) log.

(** Events that strong-root processing can produce. *)
Definition is_strong_root_event (e : Event) : bool :=
  match e with
  | EvProcessAllRoots _ _ _ _ _ => true
  | EvClaim t _ => bool_decide (t ≠ weak_subtask)
  | EvTimerStart p _ | EvTimerStop p _ _ => bool_decide (p ≠ JNIWeakRoots)
  | EvVisit (FromSubtask t) _ => bool_decide (t ≠ weak_subtask)
  | _ => false
  end.

(** What strong-root processing leaves alone: it emits strong-root events
    only, constructs nothing, releases no claim, does not touch the claim
    of the weak-handle roots nor the timing cells of the weak-roots phase,
    and time does not run backwards. *)
Definition strong_frame (s s' : State) (es : list Event) : Prop :=
  Forall (λ e, is_strong_root_event e = true) es ∧
  next_addr s' = next_addr s ∧
  _process_strong_tasks s ⊆ _process_strong_tasks s' ∧
  (SHENANDOAH_RP_PS_JNIHandles_weak_oops_do ∈ _process_strong_tasks s' →
   SHENANDOAH_RP_PS_JNIHandles_weak_oops_do ∈ _process_strong_tasks s) ∧
  (∀ w, worker_times s' !! (JNIWeakRoots, w) =
        worker_times s !! (JNIWeakRoots, w)) ∧
  clock s ≤ clock s'.

(** The liveness filter a pass was handed, by its address. *)
Definition is_alive_arg (e : Event) : option nat :=
  match e with
  | EvWeakOopsDo a _ | EvParallelOopsDo a _ _ => Some a
  | _ => None
  end.

(** Forgetting which worker an event is attributed to. *)
Definition erase_worker (e : Event) : Event :=
  match e with
  | EvTimerStart p _ => EvTimerStart p 0
  | EvTimerStop p _ elapsed => EvTimerStop p 0 elapsed
  | EvProcessAllRoots oops clds blobs thread_cl _ =>
      EvProcessAllRoots oops clds blobs thread_cl 0
  | EvParallelOopsDo a oops _ => EvParallelOopsDo a oops 0
  | _ => e
  end.

(** ** A sample phase *)

Definition sample_heap : Heap :=
  {| string_dedup_enabled := true;
     marking_context := Nat.even;
     weak_handle_table := [1; 2; 3; 4];
     class_metadata_table := [10];
     code_blob_table := [20; 21];
     thread_table := [30];
     misc_strong_table := [5];
     dedup_table_partition := λ w, [100 + w; 7];
     visit_cost := λ from _,
       match from with FromSubtask _ => 3 | FromDedupTable => 5 end |}.

Definition all_claimed : State :=
  {| _process_strong_tasks :=
       {[ weak_subtask ]} ∪ list_to_set strong_subtasks;
     worker_times := ∅; clock := 0; next_addr := 0 |}.

Definition weak_claimed : State :=
  {| _process_strong_tasks := {[ weak_subtask ]};
     worker_times := ∅; clock := 0; next_addr := 0 |}.

(** Properties of a task that hold step by step.  [Guarded I P t]: started
    in a state where [I] holds, every atomic step of [t] satisfies [P]
    (between the state before, the state after and the events emitted) and
    keeps [I]. *)
Inductive Guarded {A : Type} (I : State → Prop)
    (P : State → State → list Event → Prop) : Task A → Prop :=
| Guarded_Ret a : Guarded I P (Ret a)
| Guarded_Atomic act k :
    (∀ s, I s → P s (act s).1 (act s).2) →
    (∀ s, I s → I (act s).1) →
    (∀ s, I s → Guarded I P (k s)) →
    Guarded I P (Atomic act k).

(** ** The three kinds of worker in a pool

    With respect to the weak-handle roots, a task of the pool is, at any
    moment, of one of three kinds.  The conditions on a step are asked in
    the states the step can be taken in. *)

Definition weak_claimed_in (s : State) : Prop :=
  weak_subtask ∈ _process_strong_tasks s.

Definition no_weak_call (es : list Event) : Prop :=
  filter (λ e, is_weak_oops_do e = true) es = [].

(** A silent task: once the weak-handle roots are claimed, it leaves them
    claimed and never calls the weak-handle-root visitor. *)
Definition Silent (t : Task unit) : Prop :=
  Guarded weak_claimed_in (λ _ _ es, no_weak_call es) t.

(** The winner holds the claim and has the one call of the visitor still
    ahead. *)
Inductive Winner (oops : OopClosure) : Task unit → Prop :=
| Winner_wait act k :
    (∀ s, weak_claimed_in s → weak_claimed_in (act s).1) →
    (∀ s, weak_claimed_in s → no_weak_call (act s).2) →
    (∀ s, weak_claimed_in s → Winner oops (k s)) →
    Winner oops (Atomic act k)
| Winner_call act k :
    (∀ s, weak_claimed_in s → weak_claimed_in (act s).1) →
    (∀ s, weak_claimed_in s →
          ∃ a, filter (λ e, is_weak_oops_do e = true) (act s).2 =
                 [EvWeakOopsDo a oops]) →
    (∀ s, weak_claimed_in s → Silent (k s)) →
    Winner oops (Atomic act k).

(** A contender has not attempted the claim yet.  Its steps before the
    attempt leave the claim as it is; the attempt leaves it claimed, and
    makes the contender the winner if it was not. *)
Inductive Contender (oops : OopClosure) : Task unit → Prop :=
| Contender_wait act k :
    (∀ s, no_weak_call (act s).2) →
    (∀ s, weak_claimed_in (act s).1 ↔ weak_claimed_in s) →
    (∀ s, Contender oops (k s)) →
    Contender oops (Atomic act k)
| Contender_claim act k :
    (∀ s, no_weak_call (act s).2) →
    (∀ s, weak_claimed_in (act s).1) →
    (∀ s, ¬ weak_claimed_in s → Winner oops (k s)) →
    (∀ s, weak_claimed_in s → Silent (k s)) →
    Contender oops (Atomic act k).

(** The schedule that lets the workers run one after the other needs, for
    each of them, the number of steps of its task. *)
Fixpoint steps_of (t : Task unit) (s : State) : nat :=
  match t with
  | Ret _ => 0
  | Atomic act k => S (steps_of (k s) (act s).1)
  end.

Fixpoint sequential_schedule (i : nat) (pool : list (Task unit)) (s : State)
  : list nat :=
  match pool with
  | [] => []
  | t :: pool' =>
      replicate (steps_of t s) i ++ sequential_schedule (S i) pool' (final t s)
  end.

(** ** What one worker does, whatever the others do *)

(** The events of worker [i] in the log of a pool. *)
Definition worker_events (i : nat) (log : list (nat * Event)) : list Event :=
  snd <$> filter (λ ie, ie.1 = i) log.

(** [LocalRun t a es]: the task [t] can run to completion with the result
    [a] and emit [es], when each of its steps is taken in some state, not
    necessarily the one its last step left: between two steps of a worker
    the other workers of the pool may have moved. *)
Inductive LocalRun {A : Type} : Task A → A → list Event → Prop :=
| LocalRun_Ret a : LocalRun (Ret a) a []
| LocalRun_Atomic act k s a es :
    LocalRun (k s) a es → LocalRun (Atomic act k) a ((act s).2 ++ es).



(** What one strong-root subtask can be seen to do in a pool: the failed
    claim, or the claim and the timed visits of the category.  The elapsed
    time is whatever the shared clock says: the other workers run in the
    meantime. *)
Definition subtask_segment (heap : Heap) (oops : OopClosure) (clds : CLDClosure)
    (blobs : CodeBlobClosure) (thread_cl : ThreadClosure) (worker_id : nat)
    (t : Subtask) (es : list Event) : Prop :=
  es = [EvClaim t false] ∨
  ∃ elapsed,
    es = [EvClaim t true; EvTimerStart (phase_of t) worker_id] ++
         (EvVisit (FromSubtask t) <$>
            category_visits heap t oops clds blobs thread_cl) ++
         [EvTimerStop (phase_of t) worker_id elapsed].
(** ** Running tasks *)

Section Run.
Context {A B : Type}.

Lemma run_bind (t : Task A) (f : A → Task B) s :
  run (t ≫= f) s =
    ((run (f (run t s).1.1) (run t s).1.2).1.1,
     (run (f (run t s).1.1) (run t s).1.2).1.2,
     (run t s).2 ++ (run (f (run t s).1.1) (run t s).1.2).2).
Proof.
  revert s. induction t as [a|act k IH]; intros s.
  - cbn. by destruct (run (f a) s) as [[??]?].
  - change (Atomic act k ≫= f) with (Atomic act (λ s, k s ≫= f)).
    cbn. destruct (act s) as [s1 es1]. rewrite IH.
    destruct (run (k s) s1) as [[a s2] es2]. cbn.
    destruct (run (f a) s2) as [[b s3] es3]. cbn. by rewrite app_assoc.
Qed.

Lemma run_atomic (f : State → A * State * list Event) s :
  run (atomic f) s = f s.
Proof.
  unfold atomic. cbn. destruct (f s) as [[a s1] es]. cbn.
  by rewrite app_nil_r.
Qed.

Lemma events_bind (t : Task A) (f : A → Task B) s :
  events (t ≫= f) s =
    events t s ++ events (f (run t s).1.1) (final t s).
Proof. unfold events, final. by rewrite run_bind. Qed.

Lemma final_bind (t : Task A) (f : A → Task B) s :
  final (t ≫= f) s = final (f (run t s).1.1) (final t s).
Proof. unfold final. by rewrite run_bind. Qed.

Lemma events_atomic (f : State → A * State * list Event) s :
  events (atomic f) s = (f s).2.
Proof. unfold events. by rewrite run_atomic. Qed.

Lemma final_atomic (f : State → A * State * list Event) s :
  final (atomic f) s = (f s).1.2.
Proof. unfold final. by rewrite run_atomic. Qed.
End Run.

Lemma elapsed_add (start cost : nat) : start + cost - start = cost.
Proof. lia. Qed.

Lemma result_unit (t : Task unit) s : (run t s).1.1 = tt.
Proof. by destruct (run t s).1.1. Qed.

Lemma events_seq {B : Type} (t : Task unit) (u : Task B) s :
  events (t ;; u) s = events t s ++ events u (final t s).
Proof. apply events_bind. Qed.

Lemma final_seq {B : Type} (t : Task unit) (u : Task B) s :
  final (t ;; u) s = final u (final t s).
Proof. apply final_bind. Qed.

Lemma events_ret {A : Type} (a : A) s : events (Ret a) s = [].
Proof. done. Qed.

Lemma final_ret {A : Type} (a : A) s : final (Ret a) s = s.
Proof. done. Qed.

(** ** Stepwise properties *)

Section Guarded.
Context (I : State → Prop) (P : State → State → list Event → Prop).

Lemma Guarded_bind {A B : Type} (t : Task A) (f : A → Task B) :
  Guarded I P t → (∀ a, Guarded I P (f a)) → Guarded I P (t ≫= f).
Proof.
  intros Ht Hf. induction Ht as [a|act k HP HI Hk IH]; [apply Hf|].
  change (Atomic act k ≫= f) with (Atomic act (λ s, k s ≫= f)).
  constructor; auto.
Qed.

Lemma Guarded_atomic {A : Type} (f : State → A * State * list Event) :
  (∀ s, I s → P s (f s).1.2 (f s).2 ∧ I (f s).1.2) →
  Guarded I P (atomic f).
Proof.
  intros Hf. constructor; intros s Hs; [apply Hf| apply Hf|constructor]; done.
Qed.

Lemma Guarded_for_each {A : Type} (l : list A) (body : A → Task unit) :
  (∀ x, x ∈ l → Guarded I P (body x)) → Guarded I P (for_each l body).
Proof.
  induction l as [|x l IH]; intros Hb; [constructor|].
  apply Guarded_bind; [apply Hb; left|].
  intros _. apply IH. intros y Hy. apply Hb. by right.
Qed.

(** A stepwise property that composes holds of the whole run. *)
Lemma Guarded_run {A : Type} (t : Task A) s :
  (∀ s, P s s []) →
  (∀ s1 s2 s3 es1 es2, P s1 s2 es1 → P s2 s3 es2 → P s1 s3 (es1 ++ es2)) →
  Guarded I P t → I s →
  P s (final t s) (events t s) ∧ I (final t s).
Proof.
  intros Hrefl Htrans Ht. revert s.
  induction Ht as [a|act k HP HI Hk IH]; intros s Hs; [by split|].
  unfold final, events. cbn.
  specialize (HP s Hs). specialize (HI s Hs).
  destruct (act s) as [s1 es1] eqn:Hact. cbn in *.
  specialize (IH s Hs s1 HI). unfold final, events in IH.
  destruct (run (k s) s1) as [[a s2] es2]. cbn in *.
  destruct IH as [IH1 IH2]. split; [|done]. by eapply Htrans.
Qed.
End Guarded.

Lemma Guarded_mono {A : Type} (I I' : State → Prop)
    (P P' : State → State → list Event → Prop) (t : Task A) :
  (∀ s, I' s → I s) →
  (∀ s s' es, I' s → P s s' es → I s' → P' s s' es ∧ I' s') →
  Guarded I P t → Guarded I' P' t.
Proof.
  intros HI HP Ht. induction Ht as [a|act k H1 H2 Hk IH]; constructor.
  - intros s Hs. by apply (HP s _ _ Hs (H1 s (HI s Hs)) (H2 s (HI s Hs))).
  - intros s Hs. by apply (HP s _ _ Hs (H1 s (HI s Hs)) (H2 s (HI s Hs))).
  - intros s Hs. by apply IH, HI.
Qed.

Lemma filter_disjoint (p q : Event → bool) (es : list Event) :
  Forall (λ e, p e = true) es → (∀ e, p e = true → q e = false) →
  filter (λ e, q e = true) es = [].
Proof.
  intros Hes Hpq. induction Hes as [|e es He _ IH]; [done|].
  rewrite filter_cons, IH. case_decide as Hq; [|done].
  by rewrite Hpq in Hq.
Qed.

Lemma filter_all (p : Event → bool) (es : list Event) :
  Forall (λ e, p e = true) es → filter (λ e, p e = true) es = es.
Proof.
  induction 1 as [|e es He _ IH]; [done|].
  rewrite filter_cons, IH. by case_decide.
Qed.

Section Collaborators.
Context (heap : Heap).
Context {IsAlive : Type} `{!BoolObjectClosure IsAlive}.
Implicit Types (s : State) (oops : OopClosure) (clds : CLDClosure)
  (blobs : CodeBlobClosure) (thread_cl : ThreadClosure) (w : nat)
  (is_alive : StackObj IsAlive).

Lemma run_invoke from v s :
  run (invoke heap from v) s =
    (tt, set_clock (clock s + visit_cost heap from v) s, [EvVisit from v]).
Proof. unfold invoke. by rewrite run_atomic. Qed.

(** A pass over a table that visits what the filter reports alive. *)
Lemma run_live_pass from is_alive oops table s :
  run (for_each table (λ o,
         if do_object_b (obj is_alive) o
         then invoke heap from (do_oop oops o) else Ret tt)) s =
    (tt,
     set_clock
       (clock s + visits_cost heap from (live_visits (obj is_alive) oops table)) s,
     EvVisit from <$> live_visits (obj is_alive) oops table).
Proof.
  revert s. induction table as [|o table IH]; intros s.
  - cbn. unfold visits_cost. cbn. rewrite Nat.add_0_r. by destruct s.
  - cbn [for_each]. rewrite run_bind, IH. unfold live_visits, visits_cost.
    rewrite filter_cons.
    destruct (do_object_b (obj is_alive) o) eqn:Ho.
    + rewrite decide_True by done. rewrite run_invoke.
      cbn. unfold set_clock. cbn. by rewrite Nat.add_assoc.
    + rewrite decide_False by done. done.
Qed.

Lemma run_weak_oops_do is_alive oops s :
  run (weak_oops_do heap is_alive oops) s =
    (tt,
     set_clock
       (clock s + visits_cost heap (FromSubtask weak_subtask)
          (live_visits (obj is_alive) oops (weak_handle_table heap))) s,
     EvWeakOopsDo (addr is_alive) oops ::
     (EvVisit (FromSubtask weak_subtask) <$>
        live_visits (obj is_alive) oops (weak_handle_table heap))).
Proof.
  unfold weak_oops_do. rewrite run_bind, run_atomic. cbn -[run].
  by rewrite run_live_pass.
Qed.

Lemma run_parallel_oops_do is_alive oops w s :
  run (parallel_oops_do heap is_alive oops w) s =
    (tt,
     set_clock
       (clock s + visits_cost heap FromDedupTable
          (live_visits (obj is_alive) oops (dedup_table_partition heap w))) s,
     EvParallelOopsDo (addr is_alive) oops w ::
     (EvVisit FromDedupTable <$>
        live_visits (obj is_alive) oops (dedup_table_partition heap w))).
Proof.
  unfold parallel_oops_do. rewrite run_bind, run_atomic. cbn -[run].
  by rewrite run_live_pass.
Qed.
End Collaborators.

(** ** Timing records and strong-root processing *)

Section StrongRoots.
Context (heap : Heap).
Implicit Types (s : State) (oops : OopClosure) (clds : CLDClosure)
  (blobs : CodeBlobClosure) (thread_cl : ThreadClosure) (w : nat).

Lemma run_tracker_construct wt p w s :
  run (tracker_construct wt p w) s =
    ({| _worker_times := wt; _phase := p; _worker_id := w;
        _start_time := clock s |}, s, [EvTimerStart p w]).
Proof. unfold tracker_construct. by rewrite run_atomic. Qed.

Lemma run_tracker_destruct tr s :
  run (tracker_destruct tr) s =
    (tt,
     record_time_secs (_phase tr) (_worker_id tr) (clock s - _start_time tr) s,
     [EvTimerStop (_phase tr) (_worker_id tr) (clock s - _start_time tr)]).
Proof. unfold tracker_destruct. by rewrite run_atomic. Qed.

Lemma run_is_task_claimed t s :
  run (is_task_claimed t) s =
    if bool_decide (t ∈ _process_strong_tasks s)
    then (true, s, [EvClaim t false])
    else (false, set_tasks ({[t]} ∪ _process_strong_tasks s) s,
          [EvClaim t true]).
Proof. unfold is_task_claimed. by rewrite run_atomic. Qed.

(** A body run inside the scope of a tracker. *)
Lemma run_tracked wt p w (body : Task unit) s :
  run (timer ← tracker_construct wt p w; body ;; tracker_destruct timer) s =
    (tt,
     record_time_secs p w (clock (final body s) - clock s) (final body s),
     EvTimerStart p w :: events body s ++
       [EvTimerStop p w (clock (final body s) - clock s)]).
Proof.
  rewrite run_bind, !run_tracker_construct. cbn [fst snd].
  rewrite run_bind, !run_tracker_destruct. cbn [fst snd _phase _worker_id _start_time].
  by unfold final, events.
Qed.

Lemma run_visits from (l : list nat) (mk : nat → Visit) s :
  run (for_each l (λ x, invoke heap from (mk x))) s =
    (tt, set_clock (clock s + visits_cost heap from (mk <$> l)) s,
     EvVisit from <$> (mk <$> l)).
Proof.
  revert s. induction l as [|x l IH]; intros s.
  - cbn. unfold visits_cost. cbn. rewrite Nat.add_0_r. by destruct s.
  - cbn [for_each]. rewrite run_bind, IH, run_invoke.
    cbn. unfold set_clock, visits_cost. cbn. by rewrite Nat.add_assoc.
Qed.

Lemma run_roots_do t oops clds blobs thread_cl s :
  run (roots_do heap t oops clds blobs thread_cl) s =
    (tt,
     set_clock
       (clock s + visits_cost heap (FromSubtask t)
          (category_visits heap t oops clds blobs thread_cl)) s,
     EvVisit (FromSubtask t) <$>
       category_visits heap t oops clds blobs thread_cl).
Proof.
  destruct t; cbn [roots_do category_visits]; try apply run_visits.
  cbn. unfold visits_cost. cbn. rewrite Nat.add_0_r. by destruct s.
Qed.

(** What one strong-root subtask does: nothing but the failed claim when
    the subtask is taken, else the claim and the timed visits. *)
Lemma run_process_subtask wt oops clds blobs thread_cl w t s :
  run (process_subtask heap wt oops clds blobs thread_cl w t) s =
    if bool_decide (t ∈ _process_strong_tasks s)
    then (tt, s, [EvClaim t false])
    else
      let cost := visits_cost heap (FromSubtask t)
                    (category_visits heap t oops clds blobs thread_cl) in
      let s1 := set_tasks ({[t]} ∪ _process_strong_tasks s) s in
      (tt,
       record_time_secs (phase_of t) w cost (set_clock (clock s + cost) s1),
       EvClaim t true :: EvTimerStart (phase_of t) w ::
         (EvVisit (FromSubtask t) <$>
            category_visits heap t oops clds blobs thread_cl) ++
         [EvTimerStop (phase_of t) w cost]).
Proof.
  unfold process_subtask. rewrite run_bind, !run_is_task_claimed.
  case_bool_decide as Ht; cbn [fst snd negb]; [done|].
  rewrite run_tracked. unfold final, events. rewrite run_roots_do.
  cbn [fst snd clock set_clock set_tasks app]. by rewrite !elapsed_add.
Qed.
End StrongRoots.

(** ** The shape of one call of [update_all_roots] *)

Section UpdateAllRoots.
Context (heap : Heap).
Context {IsAlive : Type} `{!BoolObjectClosure IsAlive}.
Implicit Types (s : State) (oops : OopClosure) (clds : CLDClosure)
  (blobs : CodeBlobClosure) (thread_cl : ThreadClosure) (w : nat).

Lemma run_construct_IsAlive s :
  run (construct_IsAlive heap) s =
    ({| addr := next_addr s; obj := default_construct heap |},
     set_next_addr (S (next_addr s)) s,
     [EvConstructIsAlive (next_addr s)]).
Proof. unfold construct_IsAlive. by rewrite run_atomic. Qed.

Lemma run_update_all_roots oops clds blobs thread_cl w s :
  run (update_all_roots heap oops clds blobs thread_cl w) s =
    let a := next_addr s in
    let s2 := after_weak_roots heap oops w s in
    let s3 := final (process_all_roots heap oops clds blobs thread_cl w) s2 in
    (tt,
     if string_dedup_enabled heap
     then set_clock (clock s3 + dedup_cost heap oops w) s3 else s3,
     EvConstructIsAlive a ::
     EvClaim weak_subtask
       (negb (bool_decide (weak_subtask ∈ _process_strong_tasks s))) ::
     (if bool_decide (weak_subtask ∈ _process_strong_tasks s)
      then [] else weak_root_events heap a oops w) ++
     events (process_all_roots heap oops clds blobs thread_cl w) s2 ++
     (if string_dedup_enabled heap then dedup_events heap a oops w else [])).
Proof.
  unfold update_all_roots. cbn zeta.
  rewrite run_bind, !run_construct_IsAlive. cbn [fst snd].
  rewrite run_bind, !run_is_task_claimed.
  unfold after_weak_roots, weak_root_events, weak_root_cost,
    weak_root_visits, dedup_events, dedup_cost, dedup_visits.
  cbn [_process_strong_tasks set_next_addr].
  case_bool_decide as Hc; cbn [fst snd negb].
  - rewrite run_bind. cbn [run fst snd].
    rewrite run_bind. unfold ShenandoahStringDedup_is_enabled.
    rewrite run_bind. cbn [run fst snd].
    destruct (string_dedup_enabled heap).
    + rewrite run_parallel_oops_do.
      cbn [fst snd app addr obj]. by unfold final, events.
    + cbn [run fst snd app]. unfold final, events.
      by rewrite ?app_nil_r.
  - rewrite run_bind, !run_tracked. cbn [fst snd].
    unfold final, events. rewrite !run_weak_oops_do.
    cbn [fst snd clock set_clock set_tasks set_next_addr addr obj].
    rewrite !elapsed_add.
    rewrite run_bind. unfold ShenandoahStringDedup_is_enabled.
    rewrite run_bind. cbn [run fst snd].
    destruct (string_dedup_enabled heap).
    + rewrite run_parallel_oops_do.
      cbn [fst snd app addr obj]. unfold final, events.
      by rewrite <- ?app_assoc.
    + cbn [run fst snd app]. unfold final, events.
      by rewrite ?app_nil_r, <- ?app_assoc.
Qed.
End UpdateAllRoots.

(** ** Strong-root processing *)

Lemma for_each_run_ind {A : Type} (R : State → State → list Event → Prop)
    (l : list A) (body : A → Task unit) s :
  (∀ s, R s s []) →
  (∀ s1 s2 s3 es1 es2, R s1 s2 es1 → R s2 s3 es2 → R s1 s3 (es1 ++ es2)) →
  (∀ x s, x ∈ l → R s (final (body x) s) (events (body x) s)) →
  R s (final (for_each l body) s) (events (for_each l body) s).
Proof.
  intros Hrefl Htrans. revert s. induction l as [|x l IH]; intros s Hb.
  - apply Hrefl.
  - cbn [for_each]. rewrite final_seq, events_seq. eapply Htrans.
    + apply Hb. left.
    + apply IH. intros y s' Hy. apply Hb. by right.
Qed.

Lemma phase_of_strong (t : Subtask) :
  t ≠ weak_subtask → phase_of t ≠ JNIWeakRoots.
Proof. by destruct t. Qed.

Lemma weak_not_strong : weak_subtask ∉ strong_subtasks.
Proof. by apply (bool_decide_unpack _). Qed.

Lemma strong_frame_refl s : strong_frame s s [].
Proof. by repeat split. Qed.

Lemma strong_frame_trans s1 s2 s3 es1 es2 :
  strong_frame s1 s2 es1 → strong_frame s2 s3 es2 →
  strong_frame s1 s3 (es1 ++ es2).
Proof.
  intros (H1 & H2 & H3 & H4 & H5 & H6) (G1 & G2 & G3 & G4 & G5 & G6).
  repeat split.
  - by apply Forall_app.
  - congruence.
  - set_solver.
  - auto.
  - intros w. by rewrite G5.
  - lia.
Qed.

Section ProcessAllRoots.
Context (heap : Heap).
Implicit Types (s : State) (oops : OopClosure) (clds : CLDClosure)
  (blobs : CodeBlobClosure) (thread_cl : ThreadClosure) (w : nat).

Lemma strong_frame_process_subtask wt oops clds blobs thread_cl w t s :
  t ≠ weak_subtask →
  strong_frame s
    (final (process_subtask heap wt oops clds blobs thread_cl w t) s)
    (events (process_subtask heap wt oops clds blobs thread_cl w t) s).
Proof.
  intros Ht. unfold final, events. rewrite run_process_subtask.
  case_bool_decide as Hc; cbn [fst snd].
  - repeat split; try done. repeat constructor. cbn.
    by rewrite bool_decide_eq_true.
  - pose proof (phase_of_strong t Ht) as Hp.
    repeat split; cbn.
    + apply Forall_cons. split; [cbn; by rewrite bool_decide_eq_true|].
      apply Forall_cons. split; [cbn; by rewrite bool_decide_eq_true|].
      apply Forall_app. split.
      * apply Forall_fmap, Forall_forall. intros v _. cbn.
        by rewrite bool_decide_eq_true.
      * repeat constructor. cbn. by rewrite bool_decide_eq_true.
    + apply union_subseteq_r.
    + rewrite elem_of_union, elem_of_singleton. by intros [|].
    + intros w'. rewrite lookup_insert_ne; [done|]. by intros [=Hq _].
    + lia.
Qed.

Lemma run_process_all_roots oops clds blobs thread_cl w s :
  run (process_all_roots heap oops clds blobs thread_cl w) s =
    (tt,
     final (for_each strong_subtasks
              (process_subtask heap (heap_phase_timings_worker_times)
                 oops clds blobs thread_cl w)) s,
     EvProcessAllRoots oops clds blobs thread_cl w ::
     events (for_each strong_subtasks
               (process_subtask heap (heap_phase_timings_worker_times)
                  oops clds blobs thread_cl w)) s).
Proof.
  unfold process_all_roots. rewrite run_bind, !run_atomic.
  cbn [fst snd app]. unfold final, events.
  by destruct (run _ s) as [[[] ?] ?].
Qed.

Lemma strong_frame_process_all_roots oops clds blobs thread_cl w s :
  strong_frame s
    (final (process_all_roots heap oops clds blobs thread_cl w) s)
    (events (process_all_roots heap oops clds blobs thread_cl w) s).
Proof.
  unfold final at 1, events at 1. rewrite run_process_all_roots.
  cbn [fst snd].
  apply (strong_frame_trans s s _ [_]).
  { repeat split; try done. by repeat constructor. }
  apply for_each_run_ind.
  - apply strong_frame_refl.
  - apply strong_frame_trans.
  - intros t s' Ht. apply strong_frame_process_subtask.
    intros ->. by apply weak_not_strong.
Qed.
End ProcessAllRoots.

(** ** One call of [update_all_roots] *)

Section OneCall.
Context (heap : Heap).
Context {IsAlive : Type} `{!BoolObjectClosure IsAlive}.
Implicit Types (s : State) (oops : OopClosure) (clds : CLDClosure)
  (blobs : CodeBlobClosure) (thread_cl : ThreadClosure) (w a : nat).

Lemma events_update_all_roots oops clds blobs thread_cl w s :
  events (update_all_roots heap oops clds blobs thread_cl w) s =
    EvConstructIsAlive (next_addr s) ::
    EvClaim weak_subtask
      (negb (bool_decide (weak_subtask ∈ _process_strong_tasks s))) ::
    (if bool_decide (weak_subtask ∈ _process_strong_tasks s)
     then [] else weak_root_events heap (next_addr s) oops w) ++
    events (process_all_roots heap oops clds blobs thread_cl w)
      (after_weak_roots heap oops w s) ++
    (if string_dedup_enabled heap
     then dedup_events heap (next_addr s) oops w else []).
Proof. unfold events at 1. by rewrite run_update_all_roots. Qed.

Lemma final_update_all_roots oops clds blobs thread_cl w s :
  final (update_all_roots heap oops clds blobs thread_cl w) s =
    let s3 := final (process_all_roots heap oops clds blobs thread_cl w)
                (after_weak_roots heap oops w s) in
    if string_dedup_enabled heap
    then set_clock (clock s3 + dedup_cost heap oops w) s3 else s3.
Proof. unfold final at 1. by rewrite run_update_all_roots. Qed.

Lemma weak_root_events_class a oops w :
  Forall (λ e, is_weak_root_event e = true) (weak_root_events heap a oops w).
Proof.
  unfold weak_root_events. repeat apply Forall_cons_2; try done.
  apply Forall_app. split; [|by repeat constructor].
  apply Forall_fmap, Forall_forall. by intros v _.
Qed.

Lemma dedup_events_class a oops w :
  Forall (λ e, is_dedup_event e = true) (dedup_events heap a oops w).
Proof.
  unfold dedup_events. apply Forall_cons_2; [done|].
  apply Forall_fmap, Forall_forall. by intros v _.
Qed.

Lemma strong_events_class oops clds blobs thread_cl w s :
  Forall (λ e, is_strong_root_event e = true)
    (events (process_all_roots heap oops clds blobs thread_cl w) s).
Proof. apply strong_frame_process_all_roots. Qed.

(** Filtering the events of a call, part by part. *)
Lemma filter_update_all_roots (q : Event → bool) oops clds blobs thread_cl w s :
  filter (λ e, q e = true)
    (events (update_all_roots heap oops clds blobs thread_cl w) s) =
    filter (λ e, q e = true)
      [EvConstructIsAlive (next_addr s);
       EvClaim weak_subtask
         (negb (bool_decide (weak_subtask ∈ _process_strong_tasks s)))] ++
    filter (λ e, q e = true)
      (if bool_decide (weak_subtask ∈ _process_strong_tasks s)
       then [] else weak_root_events heap (next_addr s) oops w) ++
    filter (λ e, q e = true)
      (events (process_all_roots heap oops clds blobs thread_cl w)
         (after_weak_roots heap oops w s)) ++
    filter (λ e, q e = true)
      (if string_dedup_enabled heap
       then dedup_events heap (next_addr s) oops w else []).
Proof.
  rewrite events_update_all_roots.
  by rewrite <- !filter_app.
Qed.
End OneCall.

Lemma weak_root_not_construct e :
  is_weak_root_event e = true → is_construct e = false.
Proof. by destruct e. Qed.
Lemma strong_root_not_construct e :
  is_strong_root_event e = true → is_construct e = false.
Proof. by destruct e. Qed.
Lemma dedup_not_construct e : is_dedup_event e = true → is_construct e = false.
Proof. by destruct e. Qed.

Lemma weak_root_not_claim t e :
  is_weak_root_event e = true → is_claim_of t e = false.
Proof. by destruct e. Qed.
Lemma strong_root_not_weak_claim e :
  is_strong_root_event e = true → is_claim_of weak_subtask e = false.
Proof.
  destruct e; try done. cbn. intros Ht%bool_decide_eq_true.
  by apply bool_decide_eq_false.
Qed.
Lemma dedup_not_claim t e : is_dedup_event e = true → is_claim_of t e = false.
Proof. by destruct e. Qed.

Lemma strong_root_not_weak_root e :
  is_strong_root_event e = true → is_weak_root_event e = false.
Proof.
  destruct e as [| | p ? | p ? ? | | | |[t|] ?]; try done;
    unfold is_weak_root_event; cbn; intros Ht%bool_decide_eq_true;
    by rewrite bool_decide_eq_false_2 by congruence.
Qed.
Lemma dedup_not_weak_root e :
  is_dedup_event e = true → is_weak_root_event e = false.
Proof. by destruct e as [| | | | | | |[t|] ?]. Qed.

Lemma weak_root_not_dedup e :
  is_weak_root_event e = true → is_dedup_event e = false.
Proof. by destruct e as [| | | | | | |[t|] ?]. Qed.
Lemma strong_root_not_dedup e :
  is_strong_root_event e = true → is_dedup_event e = false.
Proof. by destruct e as [| | | | | | |[t|] ?]. Qed.

Lemma weak_root_not_process_all_roots e :
  is_weak_root_event e = true → is_process_all_roots e = false.
Proof. by destruct e. Qed.
Lemma dedup_not_process_all_roots e :
  is_dedup_event e = true → is_process_all_roots e = false.
Proof. by destruct e. Qed.

Lemma weak_root_not_parallel_oops_do e :
  is_weak_root_event e = true → is_parallel_oops_do e = false.
Proof. by destruct e. Qed.
Lemma strong_root_not_parallel_oops_do e :
  is_strong_root_event e = true → is_parallel_oops_do e = false.
Proof. by destruct e. Qed.

Section CallFilters.
Context (heap : Heap).
Context {IsAlive : Type} `{!BoolObjectClosure IsAlive}.
Implicit Types (s : State) (oops : OopClosure) (clds : CLDClosure)
  (blobs : CodeBlobClosure) (thread_cl : ThreadClosure) (w a : nat).

(** One construction per call. *)
Lemma filter_construct_update_all_roots oops clds blobs thread_cl w s :
  filter (λ e, is_construct e = true)
    (events (update_all_roots heap oops clds blobs thread_cl w) s) =
    [EvConstructIsAlive (next_addr s)].
Proof.
  rewrite filter_update_all_roots.
  rewrite (filter_disjoint _ _ _ (strong_events_class _ _ _ _ _ _ _))
    by apply strong_root_not_construct.
  case_bool_decide; destruct (string_dedup_enabled heap);
    rewrite ?(filter_disjoint _ _ _ (weak_root_events_class _ _ _ _))
      by apply weak_root_not_construct;
    rewrite ?(filter_disjoint _ _ _ (dedup_events_class _ _ _ _))
      by apply dedup_not_construct; done.
Qed.

(** One attempt to claim the weak-handle roots per call. *)
Lemma filter_weak_claim_update_all_roots oops clds blobs thread_cl w s :
  filter (λ e, is_claim_of weak_subtask e = true)
    (events (update_all_roots heap oops clds blobs thread_cl w) s) =
    [EvClaim weak_subtask
       (negb (bool_decide (weak_subtask ∈ _process_strong_tasks s)))].
Proof.
  rewrite filter_update_all_roots.
  rewrite (filter_disjoint _ _ _ (strong_events_class _ _ _ _ _ _ _))
    by apply strong_root_not_weak_claim.
  case_bool_decide; destruct (string_dedup_enabled heap);
    rewrite ?(filter_disjoint _ _ _ (weak_root_events_class _ _ _ _))
      by apply weak_root_not_claim;
    rewrite ?(filter_disjoint _ _ _ (dedup_events_class _ _ _ _))
      by apply dedup_not_claim; done.
Qed.

(** The deduplication pass is entered once, or not at all. *)
Lemma filter_parallel_oops_do_update_all_roots oops clds blobs thread_cl w s :
  filter (λ e, is_parallel_oops_do e = true)
    (events (update_all_roots heap oops clds blobs thread_cl w) s) =
    (if string_dedup_enabled heap
     then [EvParallelOopsDo (next_addr s) oops w] else []).
Proof.
  rewrite filter_update_all_roots.
  rewrite (filter_disjoint _ _ _ (strong_events_class _ _ _ _ _ _ _))
    by apply strong_root_not_parallel_oops_do.
  case_bool_decide; destruct (string_dedup_enabled heap);
    rewrite ?(filter_disjoint _ _ _ (weak_root_events_class _ _ _ _))
      by apply weak_root_not_parallel_oops_do;
    try done; unfold dedup_events; rewrite filter_cons; cbn;
    rewrite (filter_disjoint is_visit); try done;
    try (apply Forall_fmap, Forall_forall; by intros v _);
    by intros [].
Qed.
End CallFilters.

Lemma omap_none_class (p : Event → bool) (f : Event → option nat)
    (es : list Event) :
  Forall (λ e, p e = true) es → (∀ e, p e = true → f e = None) →
  omap f es = [].
Proof.
  intros Hes Hp. induction Hes as [|e es He _ IH]; [done|].
  cbn. by rewrite (Hp e He), IH.
Qed.

Lemma strong_root_no_is_alive_arg e :
  is_strong_root_event e = true → is_alive_arg e = None.
Proof. by destruct e. Qed.

Lemma omap_visits from (vs : list Visit) :
  omap is_alive_arg (EvVisit from <$> vs) = [].
Proof. induction vs as [|v vs IH]; [done|]. by cbn. Qed.

(** ** Strong-root processing when nothing is left to claim, and what it
    visits *)

Section StrongRootsMore.
Context (heap : Heap).
Implicit Types (s : State) (oops : OopClosure) (clds : CLDClosure)
  (blobs : CodeBlobClosure) (thread_cl : ThreadClosure) (w : nat).

Lemma run_subtasks_all_claimed wt oops clds blobs thread_cl w
    (l : list Subtask) s :
  (∀ t, t ∈ l → t ∈ _process_strong_tasks s) →
  run (for_each l (process_subtask heap wt oops clds blobs thread_cl w)) s =
    (tt, s, (λ t, EvClaim t false) <$> l).
Proof.
  induction l as [|t l IH]; intros Hl; [done|].
  cbn [for_each]. rewrite run_bind, !run_process_subtask.
  rewrite bool_decide_eq_true_2 by (apply Hl; left).
  cbn [fst snd]. rewrite IH; [done|].
  intros t' Ht'. apply Hl. by right.
Qed.

Lemma run_process_all_roots_all_claimed oops clds blobs thread_cl w s :
  (∀ t, t ∈ strong_subtasks → t ∈ _process_strong_tasks s) →
  run (process_all_roots heap oops clds blobs thread_cl w) s =
    (tt, s,
     EvProcessAllRoots oops clds blobs thread_cl w ::
       ((λ t, EvClaim t false) <$> strong_subtasks)).
Proof.
  intros Hl. rewrite run_process_all_roots. unfold final, events.
  by rewrite run_subtasks_all_claimed.
Qed.

(** The object references that strong-root processing hands to [oops]
    are those of the miscellaneous strong roots. *)
Lemma strong_oop_visits oops clds blobs thread_cl w s from cl o :
  EvVisit from (do_oop cl o) ∈
    events (process_all_roots heap oops clds blobs thread_cl w) s →
  o ∈ misc_strong_table heap.
Proof.
  unfold events. rewrite run_process_all_roots. cbn [snd].
  intros [[=]|Hin]%elem_of_cons. revert Hin.
  apply (for_each_run_ind
           (λ _ _ es, EvVisit from (do_oop cl o) ∈ es →
                      o ∈ misc_strong_table heap)).
  - by intros _ ?%elem_of_nil.
  - intros _ _ _ es1 es2 H1 H2 [?|?]%elem_of_app; auto.
  - intros t s' _. unfold events. rewrite run_process_subtask.
    case_bool_decide; cbn [snd].
    { by intros [[=]|?%elem_of_nil]%elem_of_cons. }
    intros [[=]|[[=]|Hin]%elem_of_cons]%elem_of_cons.
    apply elem_of_app in Hin as [Hin|Hin].
    + apply list_elem_of_fmap in Hin as (v & [= -> Hv] & Hin).
      destruct t; cbn in Hin; [by apply elem_of_nil in Hin|..];
        apply list_elem_of_fmap in Hin as (x & Hx & Hin);
        try by rewrite Hx in Hv.
      rewrite Hx in Hv. by injection Hv as _ ->.
    + by apply list_elem_of_singleton in Hin.
Qed.
End StrongRootsMore.

Lemma live_visits_alive {IsAlive : Type} `{!BoolObjectClosure IsAlive}
    (is_alive : IsAlive) (oops cl : OopClosure) (table : list oop) (o : oop) :
  do_oop cl o ∈ live_visits is_alive oops table →
  do_object_b is_alive o = true ∧ o ∈ table ∧ cl = oops.
Proof.
  unfold live_visits. intros (o' & [= -> ->] & Hin)%list_elem_of_fmap.
  by apply list_elem_of_filter in Hin as [? ?].
Qed.

(** ** The call without its weak-root branch, and the weak-roots timing
    cell *)

Section Comparison.
Context (heap : Heap).
Context {IsAlive : Type} `{!BoolObjectClosure IsAlive}.
Implicit Types (s : State) (oops : OopClosure) (clds : CLDClosure)
  (blobs : CodeBlobClosure) (thread_cl : ThreadClosure) (w a : nat).

Lemma run_process_all_roots_then_dedup oops clds blobs thread_cl w s :
  run (process_all_roots_then_dedup heap oops clds blobs thread_cl w) s =
    let s1 := set_next_addr (S (next_addr s)) s in
    let s3 := final (process_all_roots heap oops clds blobs thread_cl w) s1 in
    (tt,
     if string_dedup_enabled heap
     then set_clock (clock s3 + dedup_cost heap oops w) s3 else s3,
     EvConstructIsAlive (next_addr s) ::
     events (process_all_roots heap oops clds blobs thread_cl w) s1 ++
     (if string_dedup_enabled heap
      then dedup_events heap (next_addr s) oops w else [])).
Proof.
  unfold process_all_roots_then_dedup.
  rewrite run_bind, !run_construct_IsAlive. cbn [fst snd].
  rewrite run_bind. unfold dedup_events, dedup_cost, dedup_visits.
  destruct (string_dedup_enabled heap).
  - rewrite run_parallel_oops_do. by cbn [fst snd app addr obj].
  - cbn [run fst snd app]. unfold final, events. by rewrite app_nil_r.
Qed.

Lemma events_process_all_roots_then_dedup oops clds blobs thread_cl w s :
  events (process_all_roots_then_dedup heap oops clds blobs thread_cl w) s =
    EvConstructIsAlive (next_addr s) ::
    events (process_all_roots heap oops clds blobs thread_cl w)
      (set_next_addr (S (next_addr s)) s) ++
    (if string_dedup_enabled heap
     then dedup_events heap (next_addr s) oops w else []).
Proof. unfold events at 1. by rewrite run_process_all_roots_then_dedup. Qed.

Lemma final_process_all_roots_then_dedup oops clds blobs thread_cl w s :
  final (process_all_roots_then_dedup heap oops clds blobs thread_cl w) s =
    let s3 := final (process_all_roots heap oops clds blobs thread_cl w)
                (set_next_addr (S (next_addr s)) s) in
    if string_dedup_enabled heap
    then set_clock (clock s3 + dedup_cost heap oops w) s3 else s3.
Proof. unfold final at 1. by rewrite run_process_all_roots_then_dedup. Qed.

Lemma after_weak_roots_claimed oops w s :
  weak_subtask ∈ _process_strong_tasks s →
  after_weak_roots heap oops w s = set_next_addr (S (next_addr s)) s.
Proof. intros Hc. unfold after_weak_roots. by rewrite bool_decide_eq_true_2. Qed.

(** The weak-root branch writes the cell (weak-roots phase, worker). *)
Lemma recorded_after_weak_roots oops w s :
  recorded (after_weak_roots heap oops w s) JNIWeakRoots w =
    recorded s JNIWeakRoots w +
    (if bool_decide (weak_subtask ∈ _process_strong_tasks s)
     then 0 else weak_root_cost heap oops).
Proof.
  unfold after_weak_roots. case_bool_decide.
  - unfold recorded. cbn. lia.
  - unfold recorded at 1, record_time_secs. cbn.
    by rewrite lookup_insert_eq.
Qed.

(** It writes no other cell. *)
Lemma worker_times_after_weak_roots oops w s :
  delete (JNIWeakRoots, w) (worker_times (after_weak_roots heap oops w s)) =
    delete (JNIWeakRoots, w) (worker_times s).
Proof.
  unfold after_weak_roots. case_bool_decide; [done|].
  unfold record_time_secs. cbn. by rewrite delete_insert_eq.
Qed.

(** What follows the weak-root branch keeps the weak-roots cells. *)
Lemma recorded_update_all_roots oops clds blobs thread_cl w w' s :
  recorded (final (update_all_roots heap oops clds blobs thread_cl w) s)
    JNIWeakRoots w' =
  recorded (after_weak_roots heap oops w s) JNIWeakRoots w'.
Proof.
  rewrite final_update_all_roots. cbn zeta. unfold recorded.
  pose proof (strong_frame_process_all_roots heap oops clds blobs
                thread_cl w (after_weak_roots heap oops w s))
    as (_ & _ & _ & _ & Htimes & _).
  destruct (string_dedup_enabled heap); cbn [worker_times set_clock];
    by rewrite Htimes.
Qed.
End Comparison.

Lemma strong_root_not_weak_timer e :
  is_strong_root_event e = true → is_timer_of JNIWeakRoots e = false.
Proof.
  destruct e; try done; cbn; intros Ht%bool_decide_eq_true;
    by apply bool_decide_eq_false.
Qed.
Lemma dedup_not_timer e : is_dedup_event e = true → is_timer e = false.
Proof. by destruct e. Qed.
Lemma dedup_not_weak_timer e :
  is_dedup_event e = true → is_timer_of JNIWeakRoots e = false.
Proof. by destruct e. Qed.

(** ** The worker id *)

Lemma strong_root_not_weak_visitor e :
  is_strong_root_event e = true → is_weak_visitor_event e = false.
Proof.
  intros He%strong_root_not_weak_root. unfold is_weak_root_event in He.
  by apply orb_false_iff in He as [? _].
Qed.
Lemma dedup_not_weak_visitor e :
  is_dedup_event e = true → is_weak_visitor_event e = false.
Proof.
  intros He%dedup_not_weak_root. unfold is_weak_root_event in He.
  by apply orb_false_iff in He as [? _].
Qed.
Lemma weak_root_is_not_dedup e :
  is_weak_root_event e = true → negb (is_dedup_event e) = true.
Proof. intros He%weak_root_not_dedup. by rewrite He. Qed.
Lemma strong_root_is_not_dedup e :
  is_strong_root_event e = true → negb (is_dedup_event e) = true.
Proof. intros He%strong_root_not_dedup. by rewrite He. Qed.
Lemma dedup_is_dedup e :
  is_dedup_event e = true → negb (is_dedup_event e) = false.
Proof. by intros ->. Qed.

Section WorkerId.
Context (heap : Heap).
Context {IsAlive : Type} `{!BoolObjectClosure IsAlive}.
Implicit Types (s : State) (oops : OopClosure) (clds : CLDClosure)
  (blobs : CodeBlobClosure) (thread_cl : ThreadClosure) (w a : nat).

(** Strong-root processing claims and visits the same for every worker
    id; the id shows in the attribution of the timing records only. *)
Lemma process_subtasks_worker_irrelevant wt oops clds blobs thread_cl w1 w2
    (l : list Subtask) s1 s2 :
  _process_strong_tasks s1 = _process_strong_tasks s2 →
  erase_worker <$>
    events (for_each l (process_subtask heap wt oops clds blobs thread_cl w1)) s1 =
  erase_worker <$>
    events (for_each l (process_subtask heap wt oops clds blobs thread_cl w2)) s2 ∧
  _process_strong_tasks
    (final (for_each l (process_subtask heap wt oops clds blobs thread_cl w1)) s1) =
  _process_strong_tasks
    (final (for_each l (process_subtask heap wt oops clds blobs thread_cl w2)) s2).
Proof.
  revert s1 s2. induction l as [|t l IH]; intros s1 s2 Hts; [done|].
  cbn [for_each]. rewrite !events_seq, !final_seq, !fmap_app.
  assert (erase_worker <$>
            events (process_subtask heap wt oops clds blobs thread_cl w1 t) s1 =
          erase_worker <$>
            events (process_subtask heap wt oops clds blobs thread_cl w2 t) s2 ∧
          _process_strong_tasks
            (final (process_subtask heap wt oops clds blobs thread_cl w1 t) s1) =
          _process_strong_tasks
            (final (process_subtask heap wt oops clds blobs thread_cl w2 t) s2))
    as [Hev Hfin].
  { unfold events, final. rewrite !run_process_subtask. rewrite Hts.
    case_bool_decide; cbn [fst snd]; [done|].
    split; [|done].
    cbn. rewrite !fmap_app. by cbn. }
  destruct (IH _ _ Hfin) as [IH1 IH2]. by rewrite Hev, IH1.
Qed.

Lemma process_all_roots_worker_irrelevant oops clds blobs thread_cl w1 w2
    s1 s2 :
  _process_strong_tasks s1 = _process_strong_tasks s2 →
  erase_worker <$>
    events (process_all_roots heap oops clds blobs thread_cl w1) s1 =
  erase_worker <$>
    events (process_all_roots heap oops clds blobs thread_cl w2) s2 ∧
  _process_strong_tasks
    (final (process_all_roots heap oops clds blobs thread_cl w1) s1) =
  _process_strong_tasks
    (final (process_all_roots heap oops clds blobs thread_cl w2) s2).
Proof.
  intros Hts. unfold events at 1 2, final at 1 2.
  rewrite !run_process_all_roots. cbn [fst snd]. rewrite !fmap_cons.
  destruct (process_subtasks_worker_irrelevant
              heap_phase_timings_worker_times oops clds blobs thread_cl
              w1 w2 strong_subtasks s1 s2 Hts) as [-> ->].
  done.
Qed.

Lemma tasks_after_weak_roots oops w1 w2 s :
  _process_strong_tasks (after_weak_roots heap oops w1 s) =
  _process_strong_tasks (after_weak_roots heap oops w2 s).
Proof. unfold after_weak_roots. by case_bool_decide. Qed.

Lemma filter_weak_visitor_update_all_roots oops clds blobs thread_cl w s :
  filter (λ e, is_weak_visitor_event e = true)
    (events (update_all_roots heap oops clds blobs thread_cl w) s) =
    (if bool_decide (weak_subtask ∈ _process_strong_tasks s) then []
     else EvWeakOopsDo (next_addr s) oops ::
          (EvVisit (FromSubtask weak_subtask) <$>
             weak_root_visits heap oops)).
Proof.
  rewrite filter_update_all_roots.
  rewrite (filter_disjoint _ _ _ (strong_events_class _ _ _ _ _ _ _))
    by apply strong_root_not_weak_visitor.
  assert (filter (λ e, is_weak_visitor_event e = true)
            (if string_dedup_enabled heap
             then dedup_events heap (next_addr s) oops w else []) = [])
    as ->.
  { destruct (string_dedup_enabled heap); [|done].
    by rewrite (filter_disjoint _ _ _ (dedup_events_class _ _ _ _))
      by apply dedup_not_weak_visitor. }
  case_bool_decide; [done|]. unfold weak_root_events.
  rewrite !filter_cons, filter_app. cbn.
  rewrite filter_all.
  2:{ apply Forall_fmap, Forall_forall. by intros v _. }
  repeat case_decide; try done. by rewrite !app_nil_r.
Qed.

Lemma filter_not_dedup_update_all_roots oops clds blobs thread_cl w s :
  filter (λ e, negb (is_dedup_event e) = true)
    (events (update_all_roots heap oops clds blobs thread_cl w) s) =
    EvConstructIsAlive (next_addr s) ::
    EvClaim weak_subtask
      (negb (bool_decide (weak_subtask ∈ _process_strong_tasks s))) ::
    (if bool_decide (weak_subtask ∈ _process_strong_tasks s)
     then [] else weak_root_events heap (next_addr s) oops w) ++
    events (process_all_roots heap oops clds blobs thread_cl w)
      (after_weak_roots heap oops w s).
Proof.
  rewrite filter_update_all_roots.
  rewrite (filter_all _ _ (Forall_impl _ _ _
             (strong_events_class _ _ _ _ _ _ _) strong_root_is_not_dedup)).
  assert (filter (λ e, negb (is_dedup_event e) = true)
            (if string_dedup_enabled heap
             then dedup_events heap (next_addr s) oops w else []) = [])
    as ->.
  { destruct (string_dedup_enabled heap); [|done].
    apply (filter_disjoint is_dedup_event); [apply dedup_events_class|].
    apply dedup_is_dedup. }
  rewrite app_nil_r.
  case_bool_decide; [done|].
  by rewrite (filter_all _ _ (Forall_impl _ _ _
                (weak_root_events_class _ _ _ _) weak_root_is_not_dedup)).
Qed.
End WorkerId.

(** ** The pool *)

Lemma exec_nil pool s : exec [] pool s = (pool, s, []).
Proof. done. Qed.

Lemma exec_cons_None i sched pool s :
  pool !! i = None → exec (i :: sched) pool s = exec sched pool s.
Proof. intros Hi. cbn. by rewrite Hi. Qed.

Lemma exec_cons_Some i sched pool s t :
  pool !! i = Some t →
  exec (i :: sched) pool s =
    let r := exec sched (<[i := (step_task t s).1.1]> pool) (step_task t s).1.2 in
    (r.1.1, r.1.2, ((λ e, (i, e)) <$> (step_task t s).2) ++ r.2).
Proof.
  intros Hi. cbn [exec]. rewrite Hi.
  destruct (step_task t s) as [[t' s1] es]. cbn [fst snd].
  by destruct (exec sched (<[i:=t']> pool) s1) as [[pool' s2] log].
Qed.

Lemma weak_calls_app log1 log2 :
  weak_calls (log1 ++ log2) = weak_calls log1 ++ weak_calls log2.
Proof. apply filter_app. Qed.

Lemma weak_calls_tag i es :
  weak_calls ((λ e, (i, e)) <$> es) =
    (λ e, (i, e)) <$> filter (λ e, is_weak_oops_do e = true) es.
Proof.
  unfold weak_calls. induction es as [|e es IH]; [done|].
  rewrite fmap_cons, !filter_cons, IH. cbn [snd].
  by destruct (decide (is_weak_oops_do e = true)).
Qed.

Lemma Winner_not_done oops t : Winner oops t → is_done t = false.
Proof. by intros []. Qed.

Lemma Contender_not_done oops t : Contender oops t → is_done t = false.
Proof. by intros []. Qed.

(** Once the claim is taken, a contender can only lose. *)
Lemma Contender_Silent oops t : Contender oops t → Silent t.
Proof.
  induction 1 as [act k Hes Hcl Hk IH|act k Hes Hcl Hw Hs]; constructor.
  - intros s _. apply Hes.
  - intros s Hs. by apply Hcl.
  - intros s _. apply IH.
  - intros s _. apply Hes.
  - intros s _. apply Hcl.
  - done.
Qed.

Section Pool.
Context (oops : OopClosure).
Implicit Types (pool : list (Task unit)) (sched : list nat) (s : State).

(** A pool of silent tasks makes no call of the visitor. *)
Lemma Silent_exec sched pool s :
  weak_claimed_in s → Forall Silent pool →
  weak_calls (exec sched pool s).2 = [].
Proof.
  revert pool s. induction sched as [|i sched IH]; intros pool s Hs Hpool.
  { done. }
  destruct (pool !! i) as [t|] eqn:Hi.
  2:{ rewrite exec_cons_None by done. by apply IH. }
  rewrite (exec_cons_Some _ _ _ _ t) by done. cbn [snd].
  rewrite weak_calls_app, weak_calls_tag.
  pose proof (Forall_lookup_1 _ _ _ _ Hpool Hi) as Ht.
  destruct Ht as [a|act k Hes Hcl Hk]; cbn [step_task fst snd].
  - rewrite list_insert_id by done. cbn. by apply IH.
  - rewrite (Hes s Hs). cbn. apply IH; [by apply Hcl|].
    apply Forall_insert; [done|]. by apply Hk.
Qed.

(** A winner among silent tasks: when all are done, the visitor was
    called once, by the winner. *)
Lemma Winner_exec sched pool s i t :
  weak_claimed_in s → pool !! i = Some t → Winner oops t →
  (∀ j t', j ≠ i → pool !! j = Some t' → Silent t') →
  Forall (λ t, is_done t = true) (exec sched pool s).1.1 →
  ∃ a, weak_calls (exec sched pool s).2 = [(i, EvWeakOopsDo a oops)].
Proof.
  revert pool s t.
  induction sched as [|j sched IH]; intros pool s t Hs Hi Ht Hrest Hdone.
  { cbn in Hdone. pose proof (Forall_lookup_1 _ _ _ _ Hdone Hi) as Hd.
    cbn in Hd. by rewrite (Winner_not_done _ _ Ht) in Hd. }
  destruct (pool !! j) as [t'|] eqn:Hj.
  2:{ rewrite exec_cons_None in Hdone |- * by done. by eapply IH. }
  rewrite (exec_cons_Some _ _ _ _ t') in Hdone |- * by done.
  cbn [fst snd] in Hdone |- *.
  rewrite weak_calls_app, weak_calls_tag.
  destruct (decide (j = i)) as [->|Hne].
  - assert (t' = t) as -> by congruence.
    destruct Ht as [act k Hcl Hes Hk|act k Hcl Hes Hk];
      cbn [step_task fst snd] in Hdone |- *.
    + rewrite (Hes s Hs). cbn [fmap list_fmap app].
      apply (IH _ _ (k s)); try done.
      * by apply Hcl.
      * apply list_lookup_insert_eq. by eapply lookup_lt_Some.
      * by apply Hk.
      * intros j t'' Hne. rewrite list_lookup_insert_ne by done.
        by apply Hrest.
    + destruct (Hes s Hs) as [a Ha]. exists a. rewrite Ha.
      rewrite Silent_exec; [done|by apply Hcl|].
      apply Forall_lookup_2. intros j t'' Hj'.
      destruct (decide (j = i)) as [->|Hne].
      * rewrite list_lookup_insert_eq in Hj' by (by eapply lookup_lt_Some).
        injection Hj' as <-. by apply Hk.
      * rewrite list_lookup_insert_ne in Hj' by done. by eapply Hrest.
  - pose proof (Hrest j t' Hne Hj) as Ht'.
    destruct Ht' as [a|act k Hes Hcl Hk];
      cbn [step_task fst snd] in Hdone |- *.
    + rewrite list_insert_id in Hdone |- * by done. cbn.
      by eapply IH.
    + rewrite (Hes s Hs). cbn [fmap list_fmap app].
      apply (IH _ _ t); try done.
      * by apply Hcl.
      * by rewrite list_lookup_insert_ne.
      * intros j' t'' Hne'.
        destruct (decide (j' = j)) as [->|Hne''].
        -- rewrite list_lookup_insert_eq by (by eapply lookup_lt_Some).
           intros [= <-]. by apply Hk.
        -- rewrite list_lookup_insert_ne by done. by apply Hrest.
Qed.

(** A pool of contenders, nothing claimed: when all are done, the
    visitor was called once, by one of them. *)
Lemma Contender_exec sched pool s :
  ¬ weak_claimed_in s → Forall (Contender oops) pool → pool ≠ [] →
  Forall (λ t, is_done t = true) (exec sched pool s).1.1 →
  ∃ i a, i < length pool ∧
         weak_calls (exec sched pool s).2 = [(i, EvWeakOopsDo a oops)].
Proof.
  revert pool s.
  induction sched as [|j sched IH]; intros pool s Hs Hpool Hne Hdone.
  { cbn in Hdone. destruct pool as [|t pool]; [done|].
    apply Forall_cons in Hpool as [Ht _]. apply Forall_cons in Hdone as [Hd _].
    by rewrite (Contender_not_done _ _ Ht) in Hd. }
  destruct (pool !! j) as [t|] eqn:Hj.
  2:{ rewrite exec_cons_None in Hdone |- * by done. by apply IH. }
  rewrite (exec_cons_Some _ _ _ _ t) in Hdone |- * by done.
  cbn [fst snd] in Hdone |- *.
  pose proof (Forall_lookup_1 _ _ _ _ Hpool Hj) as Ht.
  destruct Ht as [act k Hes Hcl Hk|act k Hes Hcl Hw Hsil];
    cbn [step_task fst snd] in Hdone |- *;
    rewrite weak_calls_app, weak_calls_tag, (Hes s); cbn [fmap list_fmap app].
  - destruct (IH (<[j:=k s]> pool) (act s).1) as (i & a & Hlt & Hcalls);
      try done.
    + by rewrite Hcl.
    + by apply Forall_insert.
    + intros Hnil. apply (f_equal length) in Hnil.
      rewrite length_insert in Hnil. by destruct pool.
    + exists i, a. by rewrite length_insert in Hlt.
  - exists j.
    destruct (Winner_exec sched (<[j:=k s]> pool) (act s).1 j (k s))
      as [a Ha]; try done.
    + apply list_lookup_insert_eq. by eapply lookup_lt_Some.
    + by apply Hw.
    + intros j' t' Hne'. rewrite list_lookup_insert_ne by done.
      intros Hj'. eapply Contender_Silent, Forall_lookup_1; done.
    + exists a. split; [by eapply lookup_lt_Some|done].
Qed.
End Pool.

(** ** The kind of [update_all_roots]: a contender *)

Lemma bind_atomic {A B : Type} (f : State → A * State * list Event)
    (g : A → Task B) :
  atomic f ≫= g = Atomic (λ s, ((f s).1.2, (f s).2)) (λ s, g (f s).1.1).
Proof. done. Qed.

Lemma Silent_bind {A : Type} (t : Task A) (f : A → Task unit) :
  Guarded weak_claimed_in (λ _ _ es, no_weak_call es) t →
  (∀ a, Silent (f a)) → Silent (t ≫= f).
Proof. apply Guarded_bind. Qed.

Lemma Winner_bind oops (t : Task unit) (f : unit → Task unit) :
  Winner oops t → (∀ a, Silent (f a)) → Winner oops (t ≫= f).
Proof.
  intros Ht Hf. induction Ht as [act k Hcl Hes Hk IH|act k Hcl Hes Hk];
    change (Atomic act k ≫= f) with (Atomic act (λ s, k s ≫= f)).
  - apply Winner_wait; [done|done|]. intros s Hs. by apply IH.
  - apply Winner_call; [done|done|]. intros s Hs.
    apply Guarded_bind; [by apply Hk|done].
Qed.

(** Claiming a subtask, whichever, leaves the weak-handle roots claimed. *)
Lemma tasks_claim_mono (t : Subtask) s :
  weak_claimed_in s →
  weak_claimed_in (set_tasks ({[t]} ∪ _process_strong_tasks s) s).
Proof. unfold weak_claimed_in. cbn. apply union_subseteq_r. Qed.

Ltac silent_atomic :=
  apply Guarded_atomic; intros ? ?; cbn; split;
  [ done | try done ].

Section Kinds.
Context (heap : Heap).
Context {IsAlive : Type} `{!BoolObjectClosure IsAlive}.
Implicit Types (s : State) (oops : OopClosure) (clds : CLDClosure)
  (blobs : CodeBlobClosure) (thread_cl : ThreadClosure) (w a : nat)
  (is_alive : StackObj IsAlive).

Lemma Silent_invoke from v :
  Guarded weak_claimed_in (λ _ _ es, no_weak_call es) (invoke heap from v).
Proof. unfold invoke. silent_atomic. Qed.

Lemma Silent_tracker_construct wt p w :
  Guarded weak_claimed_in (λ _ _ es, no_weak_call es)
    (tracker_construct wt p w).
Proof. unfold tracker_construct. silent_atomic. Qed.

Lemma Silent_tracker_destruct tr :
  Guarded weak_claimed_in (λ _ _ es, no_weak_call es) (tracker_destruct tr).
Proof. unfold tracker_destruct. silent_atomic. Qed.

Lemma Silent_is_task_claimed t :
  Guarded weak_claimed_in (λ _ _ es, no_weak_call es) (is_task_claimed t).
Proof.
  unfold is_task_claimed. apply Guarded_atomic. intros s Hs.
  case_bool_decide; cbn; split; try done. by apply tasks_claim_mono.
Qed.

Lemma Silent_live_pass from is_alive oops table :
  Silent (for_each table (λ o,
            if do_object_b (obj is_alive) o
            then invoke heap from (do_oop oops o) else Ret tt)).
Proof.
  apply Guarded_for_each. intros o _.
  destruct (do_object_b (obj is_alive) o);
    [apply Silent_invoke|constructor].
Qed.

Lemma Silent_roots_do t oops clds blobs thread_cl :
  Silent (roots_do heap t oops clds blobs thread_cl).
Proof.
  destruct t; cbn [roots_do]; [constructor|..];
    apply Guarded_for_each; intros x _; apply Silent_invoke.
Qed.

Lemma Silent_process_subtask wt oops clds blobs thread_cl w t :
  Silent (process_subtask heap wt oops clds blobs thread_cl w t).
Proof.
  unfold process_subtask. apply Silent_bind; [apply Silent_is_task_claimed|].
  intros [|]; cbn [negb]; [constructor|].
  apply Silent_bind; [apply Silent_tracker_construct|]. intros timer.
  apply Silent_bind; [apply Silent_roots_do|]. intros _.
  apply Silent_tracker_destruct.
Qed.

Lemma Silent_process_all_roots oops clds blobs thread_cl w :
  Silent (process_all_roots heap oops clds blobs thread_cl w).
Proof.
  unfold process_all_roots. apply Silent_bind; [silent_atomic|].
  intros _. apply Guarded_for_each. intros t _.
  apply Silent_process_subtask.
Qed.

Lemma Silent_parallel_oops_do is_alive oops w :
  Silent (parallel_oops_do heap is_alive oops w).
Proof.
  unfold parallel_oops_do. apply Silent_bind; [silent_atomic|].
  intros _. apply Silent_live_pass.
Qed.

(** What follows the weak-root branch. *)
Lemma Silent_strong_and_dedup is_alive oops clds blobs thread_cl w :
  Silent
    (process_all_roots heap oops clds blobs thread_cl w ;;
     enabled ← ShenandoahStringDedup_is_enabled heap;
     if enabled : bool
     then parallel_oops_do heap is_alive oops w
     else Ret tt).
Proof.
  apply Silent_bind; [apply Silent_process_all_roots|]. intros _.
  unfold ShenandoahStringDedup_is_enabled.
  destruct (string_dedup_enabled heap); cbn;
    [apply Silent_parallel_oops_do|constructor].
Qed.

(** The weak-root branch calls the visitor once. *)
Lemma Winner_weak_branch wt is_alive oops w :
  Winner oops
    (timer ← tracker_construct wt JNIWeakRoots w;
     weak_oops_do heap is_alive oops ;;
     tracker_destruct timer).
Proof.
  unfold tracker_construct. rewrite bind_atomic.
  apply Winner_wait; [done|done|]. intros s _. cbn [fst snd].
  apply Winner_bind; [|intros _; apply Silent_tracker_destruct].
  unfold weak_oops_do. rewrite bind_atomic.
  apply Winner_call; [done| |].
  - intros s' _. by exists (addr is_alive).
  - intros s' _. cbn [fst]. apply Silent_live_pass.
Qed.

Lemma Contender_update_all_roots oops clds blobs thread_cl w :
  Contender oops (update_all_roots heap oops clds blobs thread_cl w).
Proof.
  unfold update_all_roots. cbn zeta.
  unfold construct_IsAlive. rewrite bind_atomic.
  apply Contender_wait; [done|done|]. intros s0. cbn [fst snd].
  unfold is_task_claimed. rewrite bind_atomic.
  apply Contender_claim.
  - intros s. by case_bool_decide.
  - intros s. case_bool_decide; cbn; [done|].
    unfold weak_claimed_in. cbn. apply elem_of_union_l.
    by apply elem_of_singleton.
  - intros s Hs. rewrite bool_decide_eq_false_2 by done. cbn [fst negb].
    apply Winner_bind; [apply Winner_weak_branch|].
    intros _. apply Silent_strong_and_dedup.
  - intros s Hs. rewrite bool_decide_eq_true_2 by done. cbn [fst negb].
    apply Silent_bind; [constructor|].
    intros _. apply Silent_strong_and_dedup.
Qed.
End Kinds.

(** ** Every pool can be run to completion *)

Lemma exec_app sched1 sched2 pool s :
  exec (sched1 ++ sched2) pool s =
    let r1 := exec sched1 pool s in
    let r2 := exec sched2 r1.1.1 r1.1.2 in
    (r2.1.1, r2.1.2, r1.2 ++ r2.2).
Proof.
  revert pool s. induction sched1 as [|i sched1 IH]; intros pool s.
  { cbn. by destruct (exec sched2 pool s) as [[??]?]. }
  cbn [app]. destruct (pool !! i) as [t|] eqn:Hi.
  - rewrite !(exec_cons_Some _ _ _ _ t) by done. cbn zeta.
    rewrite IH. cbn [fst snd]. by rewrite app_assoc.
  - rewrite !exec_cons_None by done. apply IH.
Qed.

(** Worker [i] alone, for as many steps as its task has. *)
Lemma exec_replicate (t : Task unit) done_prefix pool s :
  (exec (replicate (steps_of t s) (length done_prefix))
     (done_prefix ++ t :: pool) s).1 =
    (done_prefix ++ Ret tt :: pool, final t s).
Proof.
  revert s. induction t as [[]|act k IH]; intros s; [done|].
  cbn [steps_of replicate].
  rewrite (exec_cons_Some _ _ _ _ (Atomic act k))
    by (by rewrite list_lookup_middle).
  cbn [step_task fst snd].
  replace (<[length done_prefix:=k s]> (done_prefix ++ Atomic act k :: pool))
    with (done_prefix ++ k s :: pool).
  2:{ rewrite insert_app_r_alt by done. by rewrite Nat.sub_diag. }
  rewrite IH. unfold final. cbn.
  destruct (act s) as [s1 es1]. cbn.
  by destruct (run (k s) s1) as [[??]?].
Qed.

Lemma exec_sequential_schedule done_prefix pool s :
  Forall (λ t, is_done t = true) done_prefix →
  Forall (λ t, is_done t = true)
    (exec (sequential_schedule (length done_prefix) pool s)
       (done_prefix ++ pool) s).1.1.
Proof.
  revert done_prefix s.
  induction pool as [|t pool IH]; intros done_prefix s Hdone.
  { cbn. by rewrite app_nil_r. }
  cbn [sequential_schedule]. rewrite exec_app. cbn zeta. cbn [fst snd].
  pose proof (exec_replicate t done_prefix pool s) as Hrun.
  destruct (exec (replicate (steps_of t s) (length done_prefix))
              (done_prefix ++ t :: pool) s) as [[pool1 s1] log1].
  cbn [fst snd] in Hrun |- *. injection Hrun as -> ->.
  specialize (IH (done_prefix ++ [Ret tt]) (final t s)).
  rewrite length_app, Nat.add_1_r, <- app_assoc in IH. apply IH.
  apply Forall_app. split; [done|]. by repeat constructor.
Qed.

(** * The properties of [update_all_roots] *)

Section Claims.
Context (heap : Heap).
Context {IsAlive : Type} `{!BoolObjectClosure IsAlive}.
Implicit Types (s : State) (oops : OopClosure) (clds : CLDClosure)
  (blobs : CodeBlobClosure) (thread_cl : ThreadClosure) (w a : nat).

(** C2.  Every call of [update_all_roots] performs, in this order: it
    constructs one liveness filter; it attempts the claim of the
    weak-handle-roots subtask once and, when the claim is granted, runs a
    timing record tagged with the weak-roots phase and the worker id
    around the weak-handle-root visitor, which gets the filter and
    [oops]; it delegates to [process_all_roots]; and it performs the
    deduplication pass if and only if string deduplication is enabled. *)
Theorem update_all_roots_steps_in_order oops clds blobs thread_cl w s :
  let a := next_addr s in
  let granted :=
    negb (bool_decide (weak_subtask ∈ _process_strong_tasks s)) in
  let strong :=
    events (process_all_roots heap oops clds blobs thread_cl w)
      (after_weak_roots heap oops w s) in
  let evs := events (update_all_roots heap oops clds blobs thread_cl w) s in
  evs =
    [EvConstructIsAlive a] ++
    [EvClaim weak_subtask granted] ++
    (if granted
     then [EvTimerStart JNIWeakRoots w] ++
          [EvWeakOopsDo a oops] ++
          (EvVisit (FromSubtask weak_subtask) <$>
             weak_root_visits heap oops) ++
          [EvTimerStop JNIWeakRoots w (weak_root_cost heap oops)]
     else []) ++
    strong ++
    (if string_dedup_enabled heap
     then [EvParallelOopsDo a oops w] ++
          (EvVisit FromDedupTable <$> dedup_visits heap oops w)
     else []) ∧
  head strong = Some (EvProcessAllRoots oops clds blobs thread_cl w) ∧
  filter (λ e, is_construct e = true) evs = [EvConstructIsAlive a] ∧
  filter (λ e, is_claim_of weak_subtask e = true) evs =
    [EvClaim weak_subtask granted] ∧
  filter (λ e, is_parallel_oops_do e = true) evs =
    (if string_dedup_enabled heap then [EvParallelOopsDo a oops w] else []).
Proof.
  intros a granted strong evs. subst evs strong granted a.
  split_and!.
  - rewrite events_update_all_roots. by case_bool_decide.
  - unfold events. by rewrite run_process_all_roots.
  - apply filter_construct_update_all_roots.
  - apply filter_weak_claim_update_all_roots.
  - apply filter_parallel_oops_do_update_all_roots.
Qed.

(** C3.  In a call in which the claim of the weak-handle-roots subtask
    fails, the weak-handle-root visitor is not invoked and no weak-roots
    timing record is written, and [process_all_roots] is executed all the
    same. *)
Theorem update_all_roots_claim_fails oops clds blobs thread_cl w s :
  weak_subtask ∈ _process_strong_tasks s →
  let evs := events (update_all_roots heap oops clds blobs thread_cl w) s in
  filter (λ e, is_claim_of weak_subtask e = true) evs =
    [EvClaim weak_subtask false] ∧
  filter (λ e, is_weak_root_event e = true) evs = [] ∧
  (∀ w', recorded
           (final (update_all_roots heap oops clds blobs thread_cl w) s)
           JNIWeakRoots w' = recorded s JNIWeakRoots w') ∧
  evs =
    [EvConstructIsAlive (next_addr s); EvClaim weak_subtask false] ++
    events (process_all_roots heap oops clds blobs thread_cl w)
      (set_next_addr (S (next_addr s)) s) ++
    (if string_dedup_enabled heap
     then dedup_events heap (next_addr s) oops w else []) ∧
  EvProcessAllRoots oops clds blobs thread_cl w ∈ evs.
Proof.
  intros Hc evs. subst evs.
  pose proof (filter_weak_claim_update_all_roots heap oops clds blobs
                thread_cl w s) as Hclaim.
  rewrite bool_decide_eq_true_2 in Hclaim by done.
  assert (Hafter : after_weak_roots heap oops w s =
                   set_next_addr (S (next_addr s)) s).
  { unfold after_weak_roots. by rewrite bool_decide_eq_true_2. }
  split_and!.
  - done.
  - rewrite filter_update_all_roots.
    rewrite (filter_disjoint _ _ _ (strong_events_class _ _ _ _ _ _ _))
      by apply strong_root_not_weak_root.
    rewrite bool_decide_eq_true_2 by done.
    destruct (string_dedup_enabled heap);
      rewrite ?(filter_disjoint _ _ _ (dedup_events_class _ _ _ _))
        by apply dedup_not_weak_root; done.
  - intros w'. rewrite final_update_all_roots. cbn zeta.
    rewrite Hafter. unfold recorded.
    pose proof (strong_frame_process_all_roots heap oops clds blobs
                  thread_cl w (set_next_addr (S (next_addr s)) s))
      as (_ & _ & _ & _ & Htimes & _).
    destruct (string_dedup_enabled heap); cbn; by rewrite Htimes.
  - rewrite events_update_all_roots, Hafter.
    by rewrite bool_decide_eq_true_2.
  - rewrite events_update_all_roots, Hafter.
    unfold events at 1. rewrite run_process_all_roots. cbn [snd].
    do 2 right. rewrite bool_decide_eq_true_2 by done. cbn [app]. left.
Qed.

(** C4.  When string deduplication is disabled, a call of
    [update_all_roots] does not invoke the deduplication pass and the
    pass visits nothing; when it is enabled, the call invokes the pass
    exactly once, with the liveness filter of the call, [oops] and the
    worker id. *)
Theorem update_all_roots_dedup_gate oops clds blobs thread_cl w s :
  let evs := events (update_all_roots heap oops clds blobs thread_cl w) s in
  filter (λ e, is_construct e = true) evs =
    [EvConstructIsAlive (next_addr s)] ∧
  filter (λ e, is_parallel_oops_do e = true) evs =
    (if string_dedup_enabled heap
     then [EvParallelOopsDo (next_addr s) oops w] else []) ∧
  filter (λ e, is_dedup_event e = true) evs =
    (if string_dedup_enabled heap
     then EvParallelOopsDo (next_addr s) oops w ::
          (EvVisit FromDedupTable <$>
             live_visits (default_construct heap) oops
               (dedup_table_partition heap w))
     else []).
Proof.
  intros evs. subst evs.
  split_and!.
  { apply filter_construct_update_all_roots. }
  { apply filter_parallel_oops_do_update_all_roots. }
  rewrite filter_update_all_roots.
  rewrite (filter_disjoint _ _ _ (strong_events_class _ _ _ _ _ _ _))
    by apply strong_root_not_dedup.
  case_bool_decide; destruct (string_dedup_enabled heap);
    rewrite ?(filter_disjoint _ _ _ (weak_root_events_class _ _ _ _))
      by apply weak_root_not_dedup;
    rewrite ?(filter_all _ _ (dedup_events_class _ _ _ _)); done.
Qed.

(** C6.  A call of [update_all_roots] constructs exactly one liveness
    filter, at an address not in use before, and that one instance is the
    filter handed to the weak-handle-root visitor and to the
    deduplication pass of the call. *)
Theorem update_all_roots_one_filter oops clds blobs thread_cl w s :
  let evs := events (update_all_roots heap oops clds blobs thread_cl w) s in
  let a := next_addr s in
  filter (λ e, is_construct e = true) evs = [EvConstructIsAlive a] ∧
  next_addr (final (update_all_roots heap oops clds blobs thread_cl w) s) =
    S a ∧
  omap is_alive_arg evs =
    (if bool_decide (weak_subtask ∈ _process_strong_tasks s)
     then [] else [a]) ++
    (if string_dedup_enabled heap then [a] else []).
Proof.
  intros evs a. subst evs a.
  pose proof (strong_frame_process_all_roots heap oops clds blobs
                thread_cl w (after_weak_roots heap oops w s))
    as (Hstrong & Haddr & _).
  split_and!; [apply filter_construct_update_all_roots| |].
  - rewrite final_update_all_roots. cbn zeta.
    assert (next_addr (after_weak_roots heap oops w s) = S (next_addr s))
      as Ha by (unfold after_weak_roots; by case_bool_decide).
    destruct (string_dedup_enabled heap); cbn [next_addr set_clock];
      congruence.
  - rewrite events_update_all_roots.
    change (?x :: ?y :: ?l) with ([x; y] ++ l).
    rewrite !omap_app.
    rewrite (omap_none_class _ _ _ Hstrong)
      by apply strong_root_no_is_alive_arg.
    unfold weak_root_events, dedup_events.
    case_bool_decide; destruct (string_dedup_enabled heap); cbn;
      rewrite ?omap_app, ?omap_visits, ?app_nil_r; done.
Qed.

(** C5, as the code has it.  A worker that finds every subtask claimed
    writes no timing record and invokes no weak-root and no strong-root
    visitor; the closure invocations of its call are exactly those of
    the deduplication pass over its partition, which is not gated by any
    claim, and there are none when deduplication is disabled. *)
Theorem update_all_roots_all_claimed oops clds blobs thread_cl w s :
  (∀ t, t ∈ _process_strong_tasks s) →
  let evs := events (update_all_roots heap oops clds blobs thread_cl w) s in
  let s' := final (update_all_roots heap oops clds blobs thread_cl w) s in
  filter (λ e, is_timer e = true) evs = [] ∧
  worker_times s' = worker_times s ∧
  _process_strong_tasks s' = _process_strong_tasks s ∧
  filter (λ e, is_visit e = true) evs =
    (if string_dedup_enabled heap
     then EvVisit FromDedupTable <$>
            live_visits (default_construct heap) oops
              (dedup_table_partition heap w)
     else []).
Proof.
  intros Hall evs s'. subst evs s'.
  assert (Hafter : after_weak_roots heap oops w s =
                   set_next_addr (S (next_addr s)) s).
  { unfold after_weak_roots. by rewrite bool_decide_eq_true_2. }
  rewrite final_update_all_roots, events_update_all_roots. cbn zeta.
  rewrite Hafter. unfold final, events.
  rewrite run_process_all_roots_all_claimed by (intros t _; apply Hall).
  rewrite bool_decide_eq_true_2 by done. cbn [fst snd app negb].
  unfold dedup_events, dedup_visits.
  destruct (string_dedup_enabled heap); split_and!; try done.
  - rewrite !filter_cons, filter_app. cbn.
    rewrite (filter_disjoint is_visit); [done| |by intros []].
    apply Forall_fmap, Forall_forall. by intros v _.
  - rewrite !filter_cons, filter_app. cbn.
    rewrite filter_all; [done|].
    apply Forall_fmap, Forall_forall. by intros v _.
Qed.

(** C8.  A candidate that the liveness filter reports as not alive is
    handed to the object-reference visitor neither by the weak-root
    processing nor by the deduplication pass of the call; when it is
    not among the strong roots either, it never reaches the visitor. *)
Theorem update_all_roots_liveness_gating oops clds blobs thread_cl w s o :
  do_object_b (default_construct heap) o = false →
  let evs := events (update_all_roots heap oops clds blobs thread_cl w) s in
  (∀ cl, EvVisit (FromSubtask weak_subtask) (do_oop cl o) ∉ evs) ∧
  (∀ cl, EvVisit FromDedupTable (do_oop cl o) ∉ evs) ∧
  (o ∉ misc_strong_table heap → ∀ from cl, EvVisit from (do_oop cl o) ∉ evs).
Proof.
  intros Hdead evs.
  assert (Hgated : ∀ from cl, EvVisit from (do_oop cl o) ∈ evs →
            EvVisit from (do_oop cl o) ∈
              events (process_all_roots heap oops clds blobs thread_cl w)
                (after_weak_roots heap oops w s)).
  { intros from cl. subst evs. rewrite events_update_all_roots.
    intros [[=]|[[=]|Hin]%elem_of_cons]%elem_of_cons.
    apply elem_of_app in Hin as [Hin|Hin];
      [|apply elem_of_app in Hin as [Hin|Hin]; [done|]]; exfalso.
    - case_bool_decide; [by apply elem_of_nil in Hin|].
      unfold weak_root_events in Hin.
      apply elem_of_cons in Hin as [[=]|Hin].
      apply elem_of_cons in Hin as [[=]|Hin].
      apply elem_of_app in Hin as [Hin|Hin].
      + apply list_elem_of_fmap in Hin as (v & [= _ <-] & Hin).
        apply live_visits_alive in Hin as [Halive _]. congruence.
      + by apply list_elem_of_singleton in Hin.
    - destruct (string_dedup_enabled heap); [|by apply elem_of_nil in Hin].
      unfold dedup_events in Hin.
      apply elem_of_cons in Hin as [[=]|Hin].
      apply list_elem_of_fmap in Hin as (v & [= _ <-] & Hin).
      apply live_visits_alive in Hin as [Halive _]. congruence. }
  split_and!.
  - intros cl Hin%Hgated.
    pose proof (strong_events_class heap oops clds blobs thread_cl w
                  (after_weak_roots heap oops w s)) as Hstrong.
    rewrite Forall_forall in Hstrong. by apply Hstrong in Hin.
  - intros cl Hin%Hgated.
    pose proof (strong_events_class heap oops clds blobs thread_cl w
                  (after_weak_roots heap oops w s)) as Hstrong.
    rewrite Forall_forall in Hstrong. by apply Hstrong in Hin.
  - intros Hmisc from cl Hin%Hgated. by apply strong_oop_visits in Hin.
Qed.

(** C9.  The weak-roots timing record of [update_all_roots] is closed
    before [process_all_roots] and the deduplication pass begin: the
    time spent there is not accumulated into the cell (weak-roots phase,
    worker), which gets the time of the weak-handle-root visitor alone,
    and the weak-root branch writes no other cell of the timing table. *)
Theorem update_all_roots_weak_timing_scope oops clds blobs thread_cl w s :
  let granted :=
    negb (bool_decide (weak_subtask ∈ _process_strong_tasks s)) in
  let a := next_addr s in
  let weak_branch := if granted then weak_root_events heap a oops w else [] in
  let rest :=
    events (process_all_roots heap oops clds blobs thread_cl w)
      (after_weak_roots heap oops w s) ++
    (if string_dedup_enabled heap then dedup_events heap a oops w else []) in
  events (update_all_roots heap oops clds blobs thread_cl w) s =
    [EvConstructIsAlive a; EvClaim weak_subtask granted] ++
    weak_branch ++ rest ∧
  filter (λ e, is_timer e = true) weak_branch =
    (if granted
     then [EvTimerStart JNIWeakRoots w;
           EvTimerStop JNIWeakRoots w (weak_root_cost heap oops)]
     else []) ∧
  last weak_branch =
    (if granted
     then Some (EvTimerStop JNIWeakRoots w (weak_root_cost heap oops))
     else None) ∧
  head rest = Some (EvProcessAllRoots oops clds blobs thread_cl w) ∧
  filter (λ e, is_timer_of JNIWeakRoots e = true) rest = [] ∧
  recorded (final (update_all_roots heap oops clds blobs thread_cl w) s)
    JNIWeakRoots w =
    recorded s JNIWeakRoots w +
    (if granted then weak_root_cost heap oops else 0) ∧
  delete (JNIWeakRoots, w) (worker_times (after_weak_roots heap oops w s)) =
    delete (JNIWeakRoots, w) (worker_times s).
Proof.
  intros granted a weak_branch rest. subst granted a weak_branch rest.
  split_and!.
  - rewrite events_update_all_roots. by case_bool_decide.
  - case_bool_decide; [done|]. cbn [negb]. unfold weak_root_events.
    rewrite !filter_cons, filter_app. cbn.
    rewrite (filter_disjoint is_visit); [done| |by intros []].
    apply Forall_fmap, Forall_forall. by intros v _.
  - case_bool_decide; [done|]. cbn [negb]. unfold weak_root_events.
    by rewrite !last_cons, last_snoc.
  - unfold events. by rewrite run_process_all_roots.
  - rewrite filter_app.
    rewrite (filter_disjoint _ _ _ (strong_events_class _ _ _ _ _ _ _))
      by apply strong_root_not_weak_timer.
    destruct (string_dedup_enabled heap); [|done].
    by rewrite (filter_disjoint _ _ _ (dedup_events_class _ _ _ _))
      by apply dedup_not_weak_timer.
  - rewrite recorded_update_all_roots, recorded_after_weak_roots.
    by case_bool_decide.
  - apply worker_times_after_weak_roots.
Qed.

(** C10.  Entered with the weak-handle roots already claimed,
    [update_all_roots] behaves as [process_all_roots] with the same
    arguments followed by the deduplication pass when deduplication is
    enabled: the same final state and, the failed claim apart, the same
    events; nothing of the weak-root branch is seen, and the liveness
    filter is constructed and handed to the deduplication pass. *)
Theorem update_all_roots_weak_claimed_refines oops clds blobs thread_cl w s :
  weak_subtask ∈ _process_strong_tasks s →
  let evs := events (update_all_roots heap oops clds blobs thread_cl w) s in
  let evs' :=
    events (process_all_roots_then_dedup heap oops clds blobs thread_cl w) s in
  final (update_all_roots heap oops clds blobs thread_cl w) s =
    final (process_all_roots_then_dedup heap oops clds blobs thread_cl w) s ∧
  head evs' = Some (EvConstructIsAlive (next_addr s)) ∧
  evs = EvConstructIsAlive (next_addr s) :: EvClaim weak_subtask false ::
          tail evs' ∧
  filter (λ e, is_weak_root_event e = true) evs = [] ∧
  omap is_alive_arg evs =
    (if string_dedup_enabled heap then [next_addr s] else []).
Proof.
  intros Hc evs evs'. subst evs evs'.
  pose proof (strong_frame_process_all_roots heap oops clds blobs
                thread_cl w (set_next_addr (S (next_addr s)) s))
    as (Hstrong & _).
  rewrite final_update_all_roots, events_update_all_roots.
  rewrite final_process_all_roots_then_dedup.
  rewrite !events_process_all_roots_then_dedup. cbn zeta.
  rewrite after_weak_roots_claimed by done.
  rewrite bool_decide_eq_true_2 by done. cbn [fst snd negb app head tail].
  split_and!; try done.
  - rewrite !filter_cons, filter_app. cbn.
    rewrite (filter_disjoint _ _ _ Hstrong)
      by apply strong_root_not_weak_root.
    destruct (string_dedup_enabled heap); [|done].
    by rewrite (filter_disjoint _ _ _ (dedup_events_class _ _ _ _))
      by apply dedup_not_weak_root.
  - cbn. rewrite omap_app.
    rewrite (omap_none_class _ _ _ Hstrong)
      by apply strong_root_no_is_alive_arg.
    destruct (string_dedup_enabled heap); [|done].
    unfold dedup_events. cbn. by rewrite omap_visits.
Qed.

(** C7.  The outcome of the claim of the weak-handle roots does not
    depend on the worker id: two calls that differ in the worker id only
    get the same answer from the claim and invoke the weak-handle-root
    visitor alike.  The worker id shows in the attribution of the timing
    records and in the deduplication pass, and nowhere else. *)
Theorem update_all_roots_claim_ignores_worker oops clds blobs thread_cl
    w1 w2 s :
  let U := update_all_roots heap oops clds blobs thread_cl in
  filter (λ e, is_claim_of weak_subtask e = true) (events (U w1) s) =
    filter (λ e, is_claim_of weak_subtask e = true) (events (U w2) s) ∧
  filter (λ e, is_weak_visitor_event e = true) (events (U w1) s) =
    filter (λ e, is_weak_visitor_event e = true) (events (U w2) s) ∧
  _process_strong_tasks (final (U w1) s) =
    _process_strong_tasks (final (U w2) s) ∧
  erase_worker <$>
    filter (λ e, negb (is_dedup_event e) = true) (events (U w1) s) =
  erase_worker <$>
    filter (λ e, negb (is_dedup_event e) = true) (events (U w2) s).
Proof.
  intros U. subst U.
  destruct (process_all_roots_worker_irrelevant heap oops clds blobs
              thread_cl w1 w2 _ _ (tasks_after_weak_roots heap oops w1 w2 s))
    as [Hev Hfin].
  split_and!.
  - by rewrite !filter_weak_claim_update_all_roots.
  - by rewrite !filter_weak_visitor_update_all_roots.
  - rewrite !final_update_all_roots. cbn zeta.
    by destruct (string_dedup_enabled heap).
  - rewrite !filter_not_dedup_update_all_roots, !fmap_cons, !fmap_app, Hev.
    case_bool_decide; [done|]. unfold weak_root_events.
    by rewrite !fmap_cons, !fmap_app.
Qed.
End Claims.

(** C1.  In one phase instance in which every worker of the pool calls
    [update_all_roots] once, the weak-handle-root visitor is invoked by
    exactly one of the calls.  The claim primitive grants a subtask to one
    caller; the workers may interleave in any way.  The pool can be run to
    completion, and whenever all its workers are done, the log holds one
    call of [WeakProcessor::weak_oops_do], made by one worker of the pool
    with the [oops] closure. *)
Theorem update_all_roots_weak_roots_once (heap : Heap) {IsAlive : Type}
    `{!BoolObjectClosure IsAlive} (oops : OopClosure) (clds : CLDClosure)
    (blobs : CodeBlobClosure) (thread_cl : ThreadClosure)
    (workers : list nat) (s : State) :
  weak_subtask ∉ _process_strong_tasks s →
  workers ≠ [] →
  let pool := phase_pool heap oops clds blobs thread_cl workers in
  (∃ sched, Forall (λ t, is_done t = true) (exec sched pool s).1.1) ∧
  (∀ sched,
     Forall (λ t, is_done t = true) (exec sched pool s).1.1 →
     ∃ i a, i < length workers ∧
            weak_calls (exec sched pool s).2 = [(i, EvWeakOopsDo a oops)]).
Proof.
  intros Hs Hw pool. split.
  - exists (sequential_schedule 0 pool s).
    by apply (exec_sequential_schedule [] pool s).
  - intros sched Hdone.
    destruct (Contender_exec oops sched pool s) as (i & a & Hi & Hcalls);
      try done.
    + apply Forall_fmap, Forall_forall. intros w _.
      apply Contender_update_all_roots.
    + subst pool. unfold phase_pool. by destruct workers.
    + exists i, a. split; [|done].
      subst pool. unfold phase_pool in Hi. by rewrite length_fmap in Hi.
Qed.

(** * The sample phase *)

(** Membership in the claim flags of the sample states. *)
Lemma weak_claimed_weak : weak_subtask ∈ _process_strong_tasks weak_claimed.
Proof. by apply (bool_decide_unpack _). Defined.

Lemma all_claimed_all t : t ∈ _process_strong_tasks all_claimed.
Proof. destruct t; by apply (bool_decide_unpack _). Defined.

Lemma phase_start_unclaimed : weak_subtask ∉ _process_strong_tasks phase_start.
Proof. by apply (bool_decide_unpack _). Defined.

(** Two workers, interleaved, both run to completion: one call of the
    weak-handle-root visitor. *)
Lemma update_all_roots_weak_roots_once_witness :
  ∃ i a, i < 2 ∧
    weak_calls
      (exec ([0; 1; 1; 0] ++ replicate 40 0 ++ replicate 40 1)
         (phase_pool sample_heap (IsAlive := ShenandoahIsAliveClosure)
            1 2 3 4 [0; 1]) phase_start).2 = [(i, EvWeakOopsDo a 1)].
Proof.
  apply (update_all_roots_weak_roots_once sample_heap
           (IsAlive := ShenandoahIsAliveClosure) 1 2 3 4 [0; 1] phase_start).
  - exact phase_start_unclaimed.
  - discriminate.
  - apply (bool_decide_unpack _). by vm_compute.
Defined.

Lemma update_all_roots_claim_fails_witness :
  filter (λ e, is_weak_root_event e = true)
    (events
       (update_all_roots sample_heap (IsAlive := ShenandoahIsAliveClosure)
          1 2 3 4 0) weak_claimed) = [].
Proof.
  apply (update_all_roots_claim_fails sample_heap
           (IsAlive := ShenandoahIsAliveClosure) 1 2 3 4 0 weak_claimed).
  exact weak_claimed_weak.
Defined.

Lemma update_all_roots_all_claimed_witness :
  filter (λ e, is_timer e = true)
    (events
       (update_all_roots sample_heap (IsAlive := ShenandoahIsAliveClosure)
          1 2 3 4 0) all_claimed) = [].
Proof.
  apply (update_all_roots_all_claimed sample_heap
           (IsAlive := ShenandoahIsAliveClosure) 1 2 3 4 0 all_claimed).
  exact all_claimed_all.
Defined.

(** C5 as stated fails: with every subtask claimed and deduplication
    enabled, the call of worker 0 still hands the live entry 100 of its
    partition of the deduplication table to the [oops] closure. *)
Lemma update_all_roots_all_claimed_still_visits :
  (∀ t, t ∈ _process_strong_tasks all_claimed) ∧
  filter (λ e, is_visit e = true)
    (events
       (update_all_roots sample_heap (IsAlive := ShenandoahIsAliveClosure)
          1 2 3 4 0) all_claimed) =
    [EvVisit FromDedupTable (do_oop 1 100)].
Proof. split; [exact all_claimed_all|]. by vm_compute. Qed.

(** The reference 3 is in the weak-handle root table and not marked. *)
Lemma update_all_roots_liveness_gating_witness :
  EvVisit (FromSubtask weak_subtask) (do_oop 1 3) ∉
    events
      (update_all_roots sample_heap (IsAlive := ShenandoahIsAliveClosure)
         1 2 3 4 0) phase_start.
Proof.
  assert (do_object_b (default_construct sample_heap) 3 = false) as Hdead
    by reflexivity.
  exact (proj1 (update_all_roots_liveness_gating sample_heap
                  (IsAlive := ShenandoahIsAliveClosure) 1 2 3 4 0
                  phase_start 3 Hdead) 1).
Defined.

Lemma update_all_roots_weak_claimed_refines_witness :
  final
    (update_all_roots sample_heap (IsAlive := ShenandoahIsAliveClosure)
       1 2 3 4 0) weak_claimed =
  final
    (process_all_roots_then_dedup sample_heap
       (IsAlive := ShenandoahIsAliveClosure) 1 2 3 4 0) weak_claimed.
Proof.
  apply (update_all_roots_weak_claimed_refines sample_heap
           (IsAlive := ShenandoahIsAliveClosure) 1 2 3 4 0 weak_claimed).
  exact weak_claimed_weak.
Defined.

(** ** The scenarios of the specification, on the sample phase *)

(** One call from the start of a phase. *)
Example sample_call_events :
  events
    (update_all_roots sample_heap (IsAlive := ShenandoahIsAliveClosure)
       1 2 3 4 0) phase_start =
    [ EvConstructIsAlive 0;
      EvClaim weak_subtask true;
      EvTimerStart JNIWeakRoots 0;
      EvWeakOopsDo 0 1;
      EvVisit (FromSubtask weak_subtask) (do_oop 1 2);
      EvVisit (FromSubtask weak_subtask) (do_oop 1 4);
      EvTimerStop JNIWeakRoots 0 6;
      EvProcessAllRoots 1 2 3 4 0;
      EvClaim RP_PS_ClassMetadata_roots_do true;
      EvTimerStart ClassMetadataRoots 0;
      EvVisit (FromSubtask RP_PS_ClassMetadata_roots_do) (do_cld 2 10);
      EvTimerStop ClassMetadataRoots 0 3;
      EvClaim RP_PS_Code_roots_do true;
      EvTimerStart CodeRoots 0;
      EvVisit (FromSubtask RP_PS_Code_roots_do) (do_code_blob 3 20);
      EvVisit (FromSubtask RP_PS_Code_roots_do) (do_code_blob 3 21);
      EvTimerStop CodeRoots 0 6;
      EvClaim RP_PS_Thread_roots_do true;
      EvTimerStart ThreadRoots 0;
      EvVisit (FromSubtask RP_PS_Thread_roots_do) (do_thread 4 30);
      EvTimerStop ThreadRoots 0 3;
      EvClaim RP_PS_Misc_strong_roots_do true;
      EvTimerStart MiscStrongRoots 0;
      EvVisit (FromSubtask RP_PS_Misc_strong_roots_do) (do_oop 1 5);
      EvTimerStop MiscStrongRoots 0 3;
      EvParallelOopsDo 0 1 0;
      EvVisit FromDedupTable (do_oop 1 100) ].
Proof. by vm_compute. Qed.

(** Scenario A: two workers, interleaved; five claims are granted, none
    twice, and the weak-handle-root visitor is called once. *)
Example scenario_A :
  let r :=
    exec ([0; 1; 1; 0] ++ replicate 6 0 ++ replicate 30 1 ++ replicate 30 0)
      (phase_pool sample_heap (IsAlive := ShenandoahIsAliveClosure)
         1 2 3 4 [0; 1]) phase_start in
  forallb is_done r.1.1 = true ∧
  filter (λ ie, is_granted_claim ie.2 = true) r.2 =
    [ (1, EvClaim weak_subtask true);
      (0, EvClaim RP_PS_ClassMetadata_roots_do true);
      (0, EvClaim RP_PS_Code_roots_do true);
      (1, EvClaim RP_PS_Thread_roots_do true);
      (1, EvClaim RP_PS_Misc_strong_roots_do true) ] ∧
  weak_calls r.2 = [(1, EvWeakOopsDo 1 1)].
Proof. by vm_compute. Qed.

(** Scenario B: deduplication disabled, three workers one after the
    other; no event of the deduplication pass. *)
Example scenario_B :
  let heap :=
    {| string_dedup_enabled := false;
       marking_context := marking_context sample_heap;
       weak_handle_table := weak_handle_table sample_heap;
       class_metadata_table := class_metadata_table sample_heap;
       code_blob_table := code_blob_table sample_heap;
       thread_table := thread_table sample_heap;
       misc_strong_table := misc_strong_table sample_heap;
       dedup_table_partition := dedup_table_partition sample_heap;
       visit_cost := visit_cost sample_heap |} in
  let pool :=
    phase_pool heap (IsAlive := ShenandoahIsAliveClosure) 1 2 3 4 [0; 1; 2] in
  let r := exec (sequential_schedule 0 pool phase_start) pool phase_start in
  forallb is_done r.1.1 = true ∧
  filter (λ ie, is_dedup_event ie.2 = true) r.2 = [].
Proof. by vm_compute. Qed.

(** * Further properties of [update_all_roots] *)

Section AfterACall.
Context (heap : Heap).
Context {IsAlive : Type} `{!BoolObjectClosure IsAlive}.
Implicit Types (s : State) (oops : OopClosure) (clds : CLDClosure)
  (blobs : CodeBlobClosure) (thread_cl : ThreadClosure) (w a : nat).

Lemma tasks_after_weak_roots_grow oops w s :
  _process_strong_tasks s ⊆ _process_strong_tasks (after_weak_roots heap oops w s) ∧
  weak_subtask ∈ _process_strong_tasks (after_weak_roots heap oops w s).
Proof.
  unfold after_weak_roots. case_bool_decide; cbn; [done|]. split.
  - apply union_subseteq_r.
  - apply elem_of_union_l. by apply elem_of_singleton.
Qed.

Lemma tasks_final_update_all_roots oops clds blobs thread_cl w s :
  _process_strong_tasks
    (final (update_all_roots heap oops clds blobs thread_cl w) s) =
  _process_strong_tasks
    (final (process_all_roots heap oops clds blobs thread_cl w)
       (after_weak_roots heap oops w s)).
Proof.
  rewrite final_update_all_roots. cbn zeta.
  by destruct (string_dedup_enabled heap).
Qed.

(** Entered with the weak-handle roots claimed, a call shows nothing of
    the weak-root branch. *)
Lemma no_weak_root_event_when_claimed oops clds blobs thread_cl w s :
  weak_subtask ∈ _process_strong_tasks s →
  filter (λ e, is_weak_root_event e = true)
    (events (update_all_roots heap oops clds blobs thread_cl w) s) = [].
Proof.
  intros Hc. rewrite filter_update_all_roots.
  rewrite (filter_disjoint _ _ _ (strong_events_class _ _ _ _ _ _ _))
    by apply strong_root_not_weak_root.
  rewrite bool_decide_eq_true_2 by done.
  destruct (string_dedup_enabled heap);
    rewrite ?(filter_disjoint _ _ _ (dedup_events_class _ _ _ _))
      by apply dedup_not_weak_root; done.
Qed.

(** X1.  When a call of [update_all_roots] has returned, the subtask of
    the weak-handle roots is claimed, whether the call got it or not, and
    every subtask that was claimed before is claimed still. *)
Theorem update_all_roots_leaves_weak_roots_claimed oops clds blobs thread_cl
    w s :
  let s' := final (update_all_roots heap oops clds blobs thread_cl w) s in
  weak_subtask ∈ _process_strong_tasks s' ∧
  _process_strong_tasks s ⊆ _process_strong_tasks s'.
Proof.
  intros s'. subst s'. rewrite tasks_final_update_all_roots.
  destruct (tasks_after_weak_roots_grow oops w s) as [Hsub Hweak].
  pose proof (strong_frame_process_all_roots heap oops clds blobs thread_cl w
                (after_weak_roots heap oops w s)) as (_ & _ & Hmono & _).
  split; [by apply Hmono|]. by etrans.
Qed.

(** X2.  Of two calls of [update_all_roots] made one after the other, with
    whatever closures and worker ids, the second adds nothing to what the
    weak-root branch can be seen to do: the weak-root events of the pair
    are those of the first call, and the second call leaves every cell of
    the weak-roots phase as the first one left it. *)
Theorem update_all_roots_second_call_skips_weak_roots
    oops clds blobs thread_cl w oops' clds' blobs' thread_cl' w' s :
  let first := update_all_roots heap oops clds blobs thread_cl w in
  let second := update_all_roots heap oops' clds' blobs' thread_cl' w' in
  filter (λ e, is_weak_root_event e = true) (events (first ;; second) s) =
    filter (λ e, is_weak_root_event e = true) (events first s) ∧
  filter (λ e, is_claim_of weak_subtask e = true) (events second (final first s)) =
    [EvClaim weak_subtask false] ∧
  (∀ w0, recorded (final (first ;; second) s) JNIWeakRoots w0 =
         recorded (final first s) JNIWeakRoots w0).
Proof.
  intros first second. subst first second.
  pose proof (tasks_after_weak_roots_grow oops w s) as [_ Hweak].
  pose proof (strong_frame_process_all_roots heap oops clds blobs thread_cl w
                (after_weak_roots heap oops w s)) as (_ & _ & Hmono & _).
  assert (weak_subtask ∈ _process_strong_tasks
            (final (update_all_roots heap oops clds blobs thread_cl w) s))
    as Hc by (rewrite tasks_final_update_all_roots; by apply Hmono).
  split_and!.
  - rewrite events_seq, filter_app.
    rewrite (no_weak_root_event_when_claimed oops' clds' blobs' thread_cl' w')
      by done.
    by rewrite app_nil_r.
  - rewrite filter_weak_claim_update_all_roots.
    by rewrite bool_decide_eq_true_2.
  - intros w0. rewrite final_seq, recorded_update_all_roots.
    by rewrite (after_weak_roots_claimed heap oops' w' _ Hc).
Qed.
End AfterACall.

Section Visits.
Context (heap : Heap).
Context {IsAlive : Type} `{!BoolObjectClosure IsAlive}.
Implicit Types (s : State) (oops : OopClosure) (clds : CLDClosure)
  (blobs : CodeBlobClosure) (thread_cl : ThreadClosure) (w a : nat).

Lemma strong_root_not_visit_from_weak e :
  is_strong_root_event e = true →
  is_visit_from (FromSubtask weak_subtask) e = false.
Proof.
  intros He%strong_root_not_weak_root. unfold is_weak_root_event in He.
  apply orb_false_iff in He as [He _]. by apply orb_false_iff in He as [_ ?].
Qed.

Lemma strong_root_not_visit_from_dedup e :
  is_strong_root_event e = true → is_visit_from FromDedupTable e = false.
Proof.
  intros He%strong_root_not_dedup. unfold is_dedup_event in He.
  by apply orb_false_iff in He as [_ ?].
Qed.

Lemma filter_visits_from from (vs : list Visit) :
  filter (λ e, is_visit_from from e = true) (EvVisit from <$> vs) =
    EvVisit from <$> vs.
Proof.
  apply filter_all, Forall_fmap, Forall_forall. intros v _. cbn.
  by rewrite bool_decide_eq_true_2.
Qed.

Lemma filter_visits_from_other from from' (vs : list Visit) :
  from ≠ from' →
  filter (λ e, is_visit_from from e = true) (EvVisit from' <$> vs) = [].
Proof.
  intros Hne. apply (filter_disjoint (is_visit_from from')).
  - apply Forall_fmap, Forall_forall. intros v _. cbn.
    by rewrite bool_decide_eq_true_2.
  - intros [] He; try done. cbn in *. apply bool_decide_eq_true in He.
    apply bool_decide_eq_false. congruence.
Qed.

(** X3.  No live weak root is left out, and none is visited twice: the
    closure invocations of a call on the weak-handle root table are, in
    table order, [oops] on each entry that the filter of the call reports
    alive, when the call got the claim, and none when it did not; those on
    the deduplication table are [oops] on each live entry of the partition
    of the worker, when deduplication is enabled, and none when it is
    not.  No other closure than [oops] is handed to these two passes. *)
Theorem update_all_roots_weak_and_dedup_visits oops clds blobs thread_cl w s :
  let evs := events (update_all_roots heap oops clds blobs thread_cl w) s in
  let alive := λ o, do_object_b (default_construct heap) o = true in
  filter (λ e, is_visit_from (FromSubtask weak_subtask) e = true) evs =
    (if bool_decide (weak_subtask ∈ _process_strong_tasks s) then []
     else (λ o, EvVisit (FromSubtask weak_subtask) (do_oop oops o)) <$>
            filter alive (weak_handle_table heap)) ∧
  filter (λ e, is_visit_from FromDedupTable e = true) evs =
    (if string_dedup_enabled heap
     then (λ o, EvVisit FromDedupTable (do_oop oops o)) <$>
            filter alive (dedup_table_partition heap w)
     else []).
Proof.
  intros evs alive. subst evs alive. split.
  - rewrite filter_update_all_roots.
    rewrite (filter_disjoint _ _ _ (strong_events_class _ _ _ _ _ _ _))
      by apply strong_root_not_visit_from_weak.
    assert (filter (λ e, is_visit_from (FromSubtask weak_subtask) e = true)
              (if string_dedup_enabled heap
               then dedup_events heap (next_addr s) oops w else []) = [])
      as ->.
    { destruct (string_dedup_enabled heap); [|done]. unfold dedup_events.
      rewrite filter_cons, filter_visits_from_other by done.
      by rewrite decide_False. }
    case_bool_decide; [done|].
    unfold weak_root_events, weak_root_visits, live_visits.
    rewrite !filter_cons, filter_app, filter_visits_from. cbn.
    by rewrite !app_nil_r, <- list_fmap_compose.
  - rewrite filter_update_all_roots.
    rewrite (filter_disjoint _ _ _ (strong_events_class _ _ _ _ _ _ _))
      by apply strong_root_not_visit_from_dedup.
    assert (filter (λ e, is_visit_from FromDedupTable e = true)
              (if bool_decide (weak_subtask ∈ _process_strong_tasks s)
               then [] else weak_root_events heap (next_addr s) oops w) = [])
      as ->.
    { case_bool_decide; [done|]. unfold weak_root_events.
      rewrite !filter_cons, filter_app, filter_visits_from_other by done.
      by cbn. }
    destruct (string_dedup_enabled heap); [|done].
    unfold dedup_events, dedup_visits, live_visits.
    rewrite !filter_cons, filter_visits_from. cbn.
    by rewrite <- list_fmap_compose.
Qed.
End Visits.

(** ** The pool, at any moment *)

Section PoolSafety.
Context (oops : OopClosure).
Implicit Types (pool : list (Task unit)) (sched : list nat) (s : State).

(** A winner among silent tasks, stopped anywhere: the visitor was called
    by the winner, once, or not yet. *)
Lemma Winner_exec_any sched pool s i t :
  weak_claimed_in s → pool !! i = Some t → Winner oops t →
  (∀ j t', j ≠ i → pool !! j = Some t' → Silent t') →
  weak_calls (exec sched pool s).2 = [] ∨
  ∃ a, weak_calls (exec sched pool s).2 = [(i, EvWeakOopsDo a oops)].
Proof.
  revert pool s t.
  induction sched as [|j sched IH]; intros pool s t Hs Hi Ht Hrest.
  { by left. }
  destruct (pool !! j) as [t'|] eqn:Hj.
  2:{ rewrite exec_cons_None by done. by eapply IH. }
  rewrite (exec_cons_Some _ _ _ _ t') by done. cbn [fst snd].
  rewrite weak_calls_app, weak_calls_tag.
  destruct (decide (j = i)) as [->|Hne].
  - assert (t' = t) as -> by congruence.
    destruct Ht as [act k Hcl Hes Hk|act k Hcl Hes Hk];
      cbn [step_task fst snd].
    + pose proof (Hes s Hs) as Hq. unfold no_weak_call in Hq.
      setoid_rewrite Hq. cbn [fmap list_fmap app].
      apply (IH _ _ (k s)); try done.
      * by apply Hcl.
      * apply list_lookup_insert_eq. by eapply lookup_lt_Some.
      * by apply Hk.
      * intros j t'' Hne. rewrite list_lookup_insert_ne by done.
        by apply Hrest.
    + right. destruct (Hes s Hs) as [a Ha]. exists a. rewrite Ha.
      rewrite Silent_exec; [done|by apply Hcl|].
      apply Forall_lookup_2. intros j t'' Hj'.
      destruct (decide (j = i)) as [->|Hne].
      * rewrite list_lookup_insert_eq in Hj' by (by eapply lookup_lt_Some).
        injection Hj' as <-. by apply Hk.
      * rewrite list_lookup_insert_ne in Hj' by done. by eapply Hrest.
  - pose proof (Hrest j t' Hne Hj) as Ht'.
    destruct Ht' as [a|act k Hes Hcl Hk]; cbn [step_task fst snd].
    + rewrite list_insert_id by done. cbn. by eapply IH.
    + pose proof (Hes s Hs) as Hq. unfold no_weak_call in Hq.
      setoid_rewrite Hq. cbn [fmap list_fmap app].
      apply (IH _ _ t); try done.
      * by apply Hcl.
      * by rewrite list_lookup_insert_ne.
      * intros j' t'' Hne'.
        destruct (decide (j' = j)) as [->|Hne''].
        -- rewrite list_lookup_insert_eq by (by eapply lookup_lt_Some).
           intros [= <-]. by apply Hk.
        -- rewrite list_lookup_insert_ne by done. by apply Hrest.
Qed.

(** A pool of contenders, stopped anywhere, started anywhere. *)
Lemma Contender_exec_any sched pool s :
  Forall (Contender oops) pool →
  weak_calls (exec sched pool s).2 = [] ∨
  (¬ weak_claimed_in s ∧
   ∃ i a, i < length pool ∧
          weak_calls (exec sched pool s).2 = [(i, EvWeakOopsDo a oops)]).
Proof.
  revert pool s. induction sched as [|j sched IH]; intros pool s Hpool.
  { by left. }
  destruct (decide (weak_claimed_in s)) as [Hs|Hs].
  { left. apply Silent_exec; [done|].
    eapply Forall_impl; [done|]. apply Contender_Silent. }
  destruct (pool !! j) as [t|] eqn:Hj.
  2:{ rewrite exec_cons_None by done. by apply IH. }
  rewrite (exec_cons_Some _ _ _ _ t) by done. cbn [fst snd].
  pose proof (Forall_lookup_1 _ _ _ _ Hpool Hj) as Ht.
  destruct Ht as [act k Hes Hcl Hk|act k Hes Hcl Hw Hsil];
    cbn [step_task fst snd];
    rewrite weak_calls_app, weak_calls_tag;
    pose proof (Hes s) as Hq; unfold no_weak_call in Hq;
    setoid_rewrite Hq; cbn [fmap list_fmap app].
  - destruct (IH (<[j:=k s]> pool) (act s).1) as [Hnone|(_ & i & a & Hlt & Hc)].
    + by apply Forall_insert.
    + by left.
    + right. split; [done|]. exists i, a.
      by rewrite length_insert in Hlt.
  - destruct (Winner_exec_any sched (<[j:=k s]> pool) (act s).1 j (k s))
      as [Hnone|[a Ha]]; try done.
    + apply list_lookup_insert_eq. by eapply lookup_lt_Some.
    + by apply Hw.
    + intros j' t' Hne'. rewrite list_lookup_insert_ne by done.
      intros Hj'. eapply Contender_Silent, Forall_lookup_1; done.
    + by left.
    + right. split; [done|]. exists j, a.
      split; [by eapply lookup_lt_Some|done].
Qed.
End PoolSafety.

(** X4.  At no moment of a phase has the weak-handle-root visitor been
    called twice.  Whatever the state the workers are released in, and
    wherever the schedule stops, complete or not, the log of the pool
    holds no call of [WeakProcessor::weak_oops_do], or it holds one, made
    by one worker with the [oops] closure, and then the weak-handle roots
    were unclaimed when the workers were released. *)
Theorem update_all_roots_weak_roots_never_twice (heap : Heap) {IsAlive : Type}
    `{!BoolObjectClosure IsAlive} (oops : OopClosure) (clds : CLDClosure)
    (blobs : CodeBlobClosure) (thread_cl : ThreadClosure)
    (workers : list nat) (sched : list nat) (s : State) :
  let log :=
    (exec sched (phase_pool heap oops clds blobs thread_cl workers) s).2 in
  weak_calls log = [] ∨
  ((weak_subtask ∉ _process_strong_tasks s) ∧
   (∃ i a, i < length workers ∧ weak_calls log = [(i, EvWeakOopsDo a oops)])).
Proof.
  intros log. subst log.
  destruct (Contender_exec_any oops sched
              (phase_pool heap oops clds blobs thread_cl workers) s)
    as [Hnone|(Hs & i & a & Hi & Hc)].
  - apply Forall_fmap, Forall_forall. intros w _.
    apply Contender_update_all_roots.
  - by left.
  - right. split; [done|]. exists i, a. split; [|done].
    unfold phase_pool in Hi. by rewrite length_fmap in Hi.
Qed.

(** ** One worker of a pool, seen alone *)

Lemma worker_events_app i log1 log2 :
  worker_events i (log1 ++ log2) = worker_events i log1 ++ worker_events i log2.
Proof. unfold worker_events. by rewrite filter_app, fmap_app. Qed.

Lemma worker_events_own i es :
  worker_events i ((λ e, (i, e)) <$> es) = es.
Proof.
  unfold worker_events. induction es as [|e es IH]; [done|].
  rewrite fmap_cons, filter_cons. cbn [fst].
  rewrite decide_True by done. cbn. by rewrite IH.
Qed.

Lemma worker_events_other i j es :
  i ≠ j → worker_events i ((λ e, (j, e)) <$> es) = [].
Proof.
  intros Hne. unfold worker_events. induction es as [|e es IH]; [done|].
  rewrite fmap_cons, filter_cons. cbn [fst].
  by rewrite decide_False by done.
Qed.

(** Whatever the schedule, the events of a worker that is done at the end
    are a local run of its task. *)
Lemma LocalRun_exec sched pool s i t :
  pool !! i = Some t →
  is_done <$> (exec sched pool s).1.1 !! i = Some true →
  LocalRun t tt (worker_events i (exec sched pool s).2).
Proof.
  revert pool s t. induction sched as [|j sched IH]; intros pool s t Hi Hdone.
  { cbn in Hdone. rewrite Hi in Hdone. destruct t as [[]|]; [|done].
    constructor. }
  destruct (pool !! j) as [t'|] eqn:Hj.
  2:{ rewrite exec_cons_None in Hdone |- * by done. by apply IH. }
  rewrite (exec_cons_Some _ _ _ _ t') in Hdone |- * by done.
  cbn [fst snd] in Hdone |- *. rewrite worker_events_app.
  destruct (decide (i = j)) as [->|Hne].
  - assert (t' = t) as -> by congruence. rewrite worker_events_own.
    destruct t as [a|act k]; cbn [step_task fst snd] in Hdone |- *.
    + rewrite list_insert_id in Hdone |- * by done. cbn [app]. by apply IH.
    + constructor. apply IH; [|done].
      apply list_lookup_insert_eq. by eapply lookup_lt_Some.
  - rewrite worker_events_other by done. cbn [app].
    apply IH; [|done]. by rewrite list_lookup_insert_ne.
Qed.

(** Local runs of composed tasks. *)
Lemma LocalRun_bind_inv {A B : Type} (t : Task A) (f : A → Task B) b es :
  LocalRun (t ≫= f) b es →
  ∃ a es1 es2, LocalRun t a es1 ∧ LocalRun (f a) b es2 ∧ es = es1 ++ es2.
Proof.
  revert es. induction t as [a|act k IH]; intros es Hrun.
  - exists a, [], es. split_and!; [constructor|done|done].
  - change (Atomic act k ≫= f) with (Atomic act (λ s, k s ≫= f)) in Hrun.
    inversion Hrun as [|act' k' s b' es' Hk]; simplify_eq.
    destruct (IH s _ Hk) as (a & es1 & es2 & H1 & H2 & ->).
    exists a, ((act s).2 ++ es1), es2. split_and!; [by constructor|done|].
    by rewrite app_assoc.
Qed.

Lemma LocalRun_atomic_inv {A : Type} (f : State → A * State * list Event) a es :
  LocalRun (atomic f) a es → ∃ s, a = (f s).1.1 ∧ es = (f s).2.
Proof.
  unfold atomic. intros Hrun.
  inversion Hrun as [|act' k' s b' es' Hk]; simplify_eq.
  inversion Hk; simplify_eq. exists s. by rewrite app_nil_r.
Qed.

Lemma LocalRun_Ret_inv {A : Type} (a b : A) es :
  LocalRun (Ret a) b es → b = a ∧ es = [].
Proof. intros Hrun. by inversion Hrun. Qed.

Section LocalRuns.
Context (heap : Heap).
Context {IsAlive : Type} `{!BoolObjectClosure IsAlive}.
Implicit Types (s : State) (oops : OopClosure) (clds : CLDClosure)
  (blobs : CodeBlobClosure) (thread_cl : ThreadClosure) (w a : nat)
  (is_alive : StackObj IsAlive) (es : list Event).

Lemma LocalRun_invoke_inv from v u es :
  LocalRun (invoke heap from v) u es → es = [EvVisit from v].
Proof. unfold invoke. by intros (s & _ & ->)%LocalRun_atomic_inv. Qed.

Lemma LocalRun_visits_inv from (l : list nat) (mk : nat → Visit) u es :
  LocalRun (for_each l (λ x, invoke heap from (mk x))) u es →
  es = EvVisit from <$> (mk <$> l).
Proof.
  revert es. induction l as [|x l IH]; intros es; cbn [for_each].
  - by intros [_ ->]%LocalRun_Ret_inv.
  - intros (a & es1 & es2 & H1 & H2 & ->)%LocalRun_bind_inv.
    apply LocalRun_invoke_inv in H1 as ->. by rewrite (IH _ H2).
Qed.

Lemma LocalRun_live_pass_inv from is_alive oops table u es :
  LocalRun (for_each table (λ o,
              if do_object_b (obj is_alive) o
              then invoke heap from (do_oop oops o) else Ret tt)) u es →
  es = EvVisit from <$> live_visits (obj is_alive) oops table.
Proof.
  revert es. induction table as [|o table IH]; intros es; cbn [for_each].
  - by intros [_ ->]%LocalRun_Ret_inv.
  - intros (a & es1 & es2 & H1 & H2 & ->)%LocalRun_bind_inv.
    rewrite (IH _ H2). unfold live_visits. rewrite filter_cons.
    destruct (do_object_b (obj is_alive) o) eqn:Ho.
    + apply LocalRun_invoke_inv in H1 as ->. by rewrite decide_True.
    + apply LocalRun_Ret_inv in H1 as [_ ->]. by rewrite decide_False.
Qed.

Lemma LocalRun_weak_oops_do_inv is_alive oops u es :
  LocalRun (weak_oops_do heap is_alive oops) u es →
  es = EvWeakOopsDo (addr is_alive) oops ::
       (EvVisit (FromSubtask weak_subtask) <$>
          live_visits (obj is_alive) oops (weak_handle_table heap)).
Proof.
  unfold weak_oops_do.
  intros (a & es1 & es2 & H1 & H2 & ->)%LocalRun_bind_inv.
  apply LocalRun_atomic_inv in H1 as (s & _ & ->).
  by apply LocalRun_live_pass_inv in H2 as ->.
Qed.

Lemma LocalRun_parallel_oops_do_inv is_alive oops w u es :
  LocalRun (parallel_oops_do heap is_alive oops w) u es →
  es = EvParallelOopsDo (addr is_alive) oops w ::
       (EvVisit FromDedupTable <$>
          live_visits (obj is_alive) oops (dedup_table_partition heap w)).
Proof.
  unfold parallel_oops_do.
  intros (a & es1 & es2 & H1 & H2 & ->)%LocalRun_bind_inv.
  apply LocalRun_atomic_inv in H1 as (s & _ & ->).
  by apply LocalRun_live_pass_inv in H2 as ->.
Qed.

(** A body inside the scope of a tracker: the record is opened before the
    body and closed after it. *)
Lemma LocalRun_tracked_inv wt p w (body : Task unit) u es :
  LocalRun (timer ← tracker_construct wt p w; body ;; tracker_destruct timer)
    u es →
  ∃ body_es elapsed,
    LocalRun body tt body_es ∧
    es = [EvTimerStart p w] ++ body_es ++ [EvTimerStop p w elapsed].
Proof.
  intros (tr & es1 & es2 & H1 & H2 & ->)%LocalRun_bind_inv.
  unfold tracker_construct in H1.
  apply LocalRun_atomic_inv in H1 as (s & -> & ->).
  apply LocalRun_bind_inv in H2 as ([] & es3 & es4 & H3 & H4 & ->).
  unfold tracker_destruct in H4.
  apply LocalRun_atomic_inv in H4 as (s' & _ & ->).
  by eexists es3, _.
Qed.

Lemma LocalRun_roots_do_inv t oops clds blobs thread_cl u es :
  LocalRun (roots_do heap t oops clds blobs thread_cl) u es →
  es = EvVisit (FromSubtask t) <$>
         category_visits heap t oops clds blobs thread_cl.
Proof.
  destruct t; cbn [roots_do category_visits];
    [by intros [_ ->]%LocalRun_Ret_inv|..]; apply LocalRun_visits_inv.
Qed.

Lemma LocalRun_process_subtask_inv wt oops clds blobs thread_cl w t u es :
  LocalRun (process_subtask heap wt oops clds blobs thread_cl w t) u es →
  subtask_segment heap oops clds blobs thread_cl w t es.
Proof.
  unfold process_subtask.
  intros (c & es1 & es2 & H1 & H2 & ->)%LocalRun_bind_inv.
  unfold is_task_claimed in H1.
  apply LocalRun_atomic_inv in H1 as (s & -> & ->).
  case_bool_decide; cbn [fst snd negb] in H2 |- *.
  - apply LocalRun_Ret_inv in H2 as [_ ->]. by left.
  - apply LocalRun_tracked_inv in H2 as (body_es & elapsed & Hb & ->).
    apply LocalRun_roots_do_inv in Hb as ->. right. by exists elapsed.
Qed.

Lemma LocalRun_subtasks_inv wt oops clds blobs thread_cl w (l : list Subtask)
    u es :
  LocalRun (for_each l (process_subtask heap wt oops clds blobs thread_cl w))
    u es →
  ∃ segs,
    Forall2 (subtask_segment heap oops clds blobs thread_cl w) l segs ∧
    es = concat segs.
Proof.
  revert es. induction l as [|t l IH]; intros es; cbn [for_each].
  - intros [_ ->]%LocalRun_Ret_inv. by exists [].
  - intros (a & es1 & es2 & H1 & H2 & ->)%LocalRun_bind_inv.
    apply LocalRun_process_subtask_inv in H1.
    destruct (IH _ H2) as (segs & Hsegs & ->).
    exists (es1 :: segs). split; [by constructor|done].
Qed.

Lemma LocalRun_process_all_roots_inv oops clds blobs thread_cl w u es :
  LocalRun (process_all_roots heap oops clds blobs thread_cl w) u es →
  ∃ segs,
    Forall2 (subtask_segment heap oops clds blobs thread_cl w)
      strong_subtasks segs ∧
    es = EvProcessAllRoots oops clds blobs thread_cl w :: concat segs.
Proof.
  unfold process_all_roots.
  intros (a & es1 & es2 & H1 & H2 & ->)%LocalRun_bind_inv.
  apply LocalRun_atomic_inv in H1 as (s & _ & ->).
  apply LocalRun_subtasks_inv in H2 as (segs & Hsegs & ->).
  by exists segs.
Qed.

(** The local runs of [update_all_roots]. *)
Lemma LocalRun_update_all_roots_inv oops clds blobs thread_cl w u es :
  LocalRun (update_all_roots heap oops clds blobs thread_cl w) u es →
  ∃ a granted elapsed segs,
    Forall2 (subtask_segment heap oops clds blobs thread_cl w)
      strong_subtasks segs ∧
    es =
      [EvConstructIsAlive a; EvClaim weak_subtask granted] ++
      (if granted : bool
       then [EvTimerStart JNIWeakRoots w; EvWeakOopsDo a oops] ++
            (EvVisit (FromSubtask weak_subtask) <$>
               weak_root_visits heap oops) ++
            [EvTimerStop JNIWeakRoots w elapsed]
       else []) ++
      [EvProcessAllRoots oops clds blobs thread_cl w] ++ concat segs ++
      (if string_dedup_enabled heap then dedup_events heap a oops w else []).
Proof.
  unfold update_all_roots. cbn zeta.
  intros (ia & es1 & es2 & H1 & H2 & ->)%LocalRun_bind_inv.
  unfold construct_IsAlive in H1.
  apply LocalRun_atomic_inv in H1 as (s0 & -> & ->). cbn [fst snd] in H2 |- *.
  apply LocalRun_bind_inv in H2 as (c & es3 & es4 & H3 & H4 & ->).
  unfold is_task_claimed in H3.
  apply LocalRun_atomic_inv in H3 as (s1 & -> & ->).
  apply LocalRun_bind_inv in H4 as ([] & es5 & es6 & H5 & H6 & ->).
  apply LocalRun_bind_inv in H6 as ([] & es7 & es8 & H7 & H8 & ->).
  apply LocalRun_process_all_roots_inv in H7 as (segs & Hsegs & ->).
  apply LocalRun_bind_inv in H8 as (en & es9 & es10 & H9 & H10 & ->).
  unfold ShenandoahStringDedup_is_enabled in H9.
  apply LocalRun_Ret_inv in H9 as [-> ->].
  assert (es10 = if string_dedup_enabled heap
                 then dedup_events heap (next_addr s0) oops w else [])
    as ->.
  { destruct (string_dedup_enabled heap).
    - by apply LocalRun_parallel_oops_do_inv in H10 as ->.
    - by apply LocalRun_Ret_inv in H10 as [_ ->]. }
  exists (next_addr s0).
  case_bool_decide; cbn [fst snd negb] in H5 |- *.
  - apply LocalRun_Ret_inv in H5 as [_ ->].
    by exists false, 0, segs.
  - apply LocalRun_tracked_inv in H5 as (body_es & elapsed & Hb & ->).
    apply LocalRun_weak_oops_do_inv in Hb as ->.
    by exists true, elapsed, segs.
Qed.
End LocalRuns.

(** X5.  However the workers of a pool are interleaved, a worker that has
    finished its call of [update_all_roots] has done this and no more, in
    this order: constructed one liveness filter; attempted the claim of
    the weak-handle roots once and, if it got it, run the weak-handle-root
    visitor with that filter and [oops] inside one timing record of the
    weak-roots phase under its own worker id; entered [process_all_roots]
    once with its own arguments; and, exactly when string deduplication is
    enabled, performed the deduplication pass once with the same filter,
    [oops] and its worker id. *)
Theorem update_all_roots_under_any_schedule (heap : Heap) {IsAlive : Type}
    `{!BoolObjectClosure IsAlive} (oops : OopClosure) (clds : CLDClosure)
    (blobs : CodeBlobClosure) (thread_cl : ThreadClosure)
    (workers : list nat) (sched : list nat) (s : State) (i w : nat) :
  let r := exec sched (phase_pool heap oops clds blobs thread_cl workers) s in
  workers !! i = Some w →
  is_done <$> r.1.1 !! i = Some true →
  ∃ a granted elapsed segs,
    Forall2 (subtask_segment heap oops clds blobs thread_cl w)
      strong_subtasks segs ∧
    worker_events i r.2 =
      [EvConstructIsAlive a; EvClaim weak_subtask granted] ++
      (if granted : bool
       then [EvTimerStart JNIWeakRoots w; EvWeakOopsDo a oops] ++
            (EvVisit (FromSubtask weak_subtask) <$>
               weak_root_visits heap oops) ++
            [EvTimerStop JNIWeakRoots w elapsed]
       else []) ++
      [EvProcessAllRoots oops clds blobs thread_cl w] ++ concat segs ++
      (if string_dedup_enabled heap
       then [EvParallelOopsDo a oops w] ++
            (EvVisit FromDedupTable <$> dedup_visits heap oops w)
       else []).
Proof.
  intros r Hw Hdone. subst r.
  eapply LocalRun_update_all_roots_inv, LocalRun_exec; [|done].
  unfold phase_pool. by rewrite list_lookup_fmap, Hw.
Qed.

(** ** The timing cells of the weak-roots phase after a call *)

(** X6.  After a call of [update_all_roots] by worker [w], the cells of
    the weak-roots phase are as follows: if the call got the claim, the
    cell of [w] holds what it held before plus the time of the weak
    visits, and it is written even when there was nothing to visit; every
    other cell of the phase, and the cell of [w] when the call did not get
    the claim, is as it was, absent if it was absent. *)
Theorem update_all_roots_weak_cells (heap : Heap) {IsAlive : Type}
    `{!BoolObjectClosure IsAlive} (oops : OopClosure) (clds : CLDClosure)
    (blobs : CodeBlobClosure) (thread_cl : ThreadClosure) (w w' : nat)
    (s : State) :
  worker_times (final (update_all_roots heap oops clds blobs thread_cl w) s)
    !! (JNIWeakRoots, w') =
    if bool_decide (w' = w ∧ weak_subtask ∉ _process_strong_tasks s)
    then Some (recorded s JNIWeakRoots w + weak_root_cost heap oops)
    else worker_times s !! (JNIWeakRoots, w').
Proof.
  rewrite final_update_all_roots. cbn zeta.
  pose proof (strong_frame_process_all_roots heap oops clds blobs thread_cl w
                (after_weak_roots heap oops w s))
    as (_ & _ & _ & _ & Htimes & _).
  assert (worker_times
            (final (process_all_roots heap oops clds blobs thread_cl w)
               (after_weak_roots heap oops w s)) !! (JNIWeakRoots, w') =
          worker_times (after_weak_roots heap oops w s) !! (JNIWeakRoots, w'))
    as Hpar by apply Htimes.
  assert (worker_times (after_weak_roots heap oops w s) !! (JNIWeakRoots, w') =
          if bool_decide (w' = w ∧ weak_subtask ∉ _process_strong_tasks s)
          then Some (recorded s JNIWeakRoots w + weak_root_cost heap oops)
          else worker_times s !! (JNIWeakRoots, w')) as Hweak.
  { unfold after_weak_roots. case_bool_decide as Hc.
    - rewrite bool_decide_eq_false_2; [done|]. by intros [_ ?].
    - unfold record_time_secs. cbn.
      destruct (decide (w' = w)) as [->|Hne].
      + rewrite bool_decide_eq_true_2 by done. by rewrite lookup_insert_eq.
      + rewrite bool_decide_eq_false_2 by (by intros [? _]).
        rewrite lookup_insert_ne; [done|]. congruence. }
  destruct (string_dedup_enabled heap); cbn [worker_times set_clock];
    by rewrite Hpar, Hweak.
Qed.

(** ** The addresses of the liveness filters of a pool *)







Section Allocation.
Context (heap : Heap).
Context {IsAlive : Type} `{!BoolObjectClosure IsAlive}.
Implicit Types (s : State) (oops : OopClosure) (clds : CLDClosure)
  (blobs : CodeBlobClosure) (thread_cl : ThreadClosure) (w a : nat)
  (is_alive : StackObj IsAlive).






End Allocation.


(** Worker 0 of the sample pool, which loses the claim of the weak-handle
    roots to worker 1 and finishes. *)
Lemma update_all_roots_under_any_schedule_witness :
  ∃ a granted elapsed segs,
    Forall2 (subtask_segment sample_heap 1 2 3 4 0) strong_subtasks segs ∧
    worker_events 0
      (exec ([0; 1; 1; 0] ++ replicate 6 0 ++ replicate 30 1 ++ replicate 30 0)
         (phase_pool sample_heap (IsAlive := ShenandoahIsAliveClosure)
            1 2 3 4 [0; 1]) phase_start).2 =
      [EvConstructIsAlive a; EvClaim weak_subtask granted] ++
      (if granted : bool
       then [EvTimerStart JNIWeakRoots 0; EvWeakOopsDo a 1] ++
            (EvVisit (FromSubtask weak_subtask) <$>
               weak_root_visits sample_heap
                 (IsAlive := ShenandoahIsAliveClosure) 1) ++
            [EvTimerStop JNIWeakRoots 0 elapsed]
       else []) ++
      [EvProcessAllRoots 1 2 3 4 0] ++ concat segs ++
      (if string_dedup_enabled sample_heap
       then [EvParallelOopsDo a 1 0] ++
            (EvVisit FromDedupTable <$>
               dedup_visits sample_heap
                 (IsAlive := ShenandoahIsAliveClosure) 1 0)
       else []).
Proof.
  apply (update_all_roots_under_any_schedule sample_heap
           (IsAlive := ShenandoahIsAliveClosure) 1 2 3 4 [0; 1]
           ([0; 1; 1; 0] ++ replicate 6 0 ++ replicate 30 1 ++ replicate 30 0)
           phase_start 0 0).
  - reflexivity.
  - by vm_compute.
Defined.
